(** * imagor: the request orchestration engine

    A shallow embedding of [imagor.go] (the engine with result storages,
    [Blob]s and the context-aware [suppress]) and of the earlier revision of
    the same file ([File]s, loaders only), followed by the properties of the
    load pipeline, the processor chain, the save-back logic, the result-cache
    probe, the single-flight wrapper and the HTTP rendering. *)

From stdpp Require Import base option list strings pretty gmap.
From Stdlib Require Import ZArith Lia.

Local Open Scope Z_scope.

(** ** Errors *)

(** Modelled from the spec: errors.go is missing. The error kinds of
    the engine are the closed set of the error model; [ErrPass] is the
    pass-through sentinel. *)
Inductive Error : Type :=
| ErrSignatureMismatch
| ErrNotFound
| ErrTimeout
| ErrUnsupportedFormat
| ErrMaxResolutionExceeded
| ErrMaxSizeExceeded
| ErrInternal
| ErrPass.

(** A Go [error] value: an engine [Error], one of the two sentinels of the
    [context] package, an error wrapping another one (what [Unwrap] returns),
    or any other error, known by its message only. *)
Inductive error : Type :=
| EImagor (e : Error)
| Canceled
| DeadlineExceeded
| Wrapped (msg : string) (cause : error)
| Plain (msg : string).

#[global] Instance Error_eq_dec : EqDecision Error.
Proof. solve_decision. Defined.

#[global] Instance error_eq_dec : EqDecision error.
Proof. solve_decision. Defined.

(** [errors.Is(err, target)] for a non-nil [err]: compare, then unwrap. *)
Fixpoint errors_Is_chain (err target : error) : bool :=
  if decide (err = target) then true
  else match err with
       | Wrapped _ cause => errors_Is_chain cause target
       | _ => false
       end.

(** [errors.Is] on a possibly nil error; the targets used are never nil. *)
Definition errors_Is (err : option error) (target : error) : bool :=
  match err with
  | None => false
  | Some e => errors_Is_chain e target
  end.

(** ** Contexts and requests *)

(** A [context.Context] as the engine uses it. [ctx_err] is [ctx.Err()] once
    the [Done] channel has fired ahead of whatever the holder is waiting for,
    and [None] for a context that stays live; [ctx_deadline] is the tightest
    timeout derived so far; [ctx_expires d] tells whether a deadline set [d]
    from now passes ahead of whatever the holder is waiting for (the clock of
    the run, handed down from parent to child); [ctx_held] is the set of keys
    [k] for which [ctx.Value(suppressKey{k})] is [true]. *)
Record Context : Type := mkContext {
  ctx_err : option error;
  ctx_deadline : option Z;
  ctx_expires : Z -> bool;
  ctx_held : gset string
}.

(** [context.WithValue(ctx, suppressKey{key}, true)] *)
Definition WithValue (ctx : Context) (key : string) : Context :=
  {| ctx_err := ctx_err ctx;
     ctx_deadline := ctx_deadline ctx;
     ctx_expires := ctx_expires ctx;
     ctx_held := {[ key ]} ∪ ctx_held ctx |}.

(** [ctx.Value(suppressKey{key}).(bool)], both results folded into one. *)
Definition isAcquired (ctx : Context) (key : string) : bool :=
  bool_decide (key ∈ ctx_held ctx).

(** [context.WithTimeout(ctx, d)]: the child keeps the tighter of the two
    deadlines; it fires with the error of its parent when the parent fires,
    and with [DeadlineExceeded] when its own deadline passes first. *)
Definition WithTimeout (ctx : Context) (d : Z) : Context :=
  let deadline := match ctx_deadline ctx with
                  | None => d
                  | Some d0 => Z.min d0 d
                  end in
  {| ctx_err := match ctx_err ctx with
                | Some e => Some e
                | None => if ctx_expires ctx deadline
                          then Some DeadlineExceeded else None
                end;
     ctx_deadline := Some deadline;
     ctx_expires := ctx_expires ctx;
     ctx_held := ctx_held ctx |}.

Record Request : Type := mkRequest {
  Method : string;
  EscapedPath : string;
  Accept : string;
  rctx : Context
}.

(** [r.WithContext(ctx)] *)
Definition WithContext (r : Request) (ctx : Context) : Request :=
  {| Method := Method r; EscapedPath := EscapedPath r;
     Accept := Accept r; rctx := ctx |}.

(** ** Blobs, metadata, stats *)

Record Meta : Type := mkMeta {
  Format : string;
  ContentType : string;
  Width : Z;
  Height : Z;
  Orientation : Z
}.

(** Modelled from the spec: blob.go is missing. A blob is a handle to
    image bytes: a content type, a reader factory ([None] when no reader can
    be produced) and optional metadata. *)
Record Blob : Type := mkBlob {
  blob_ContentType : string;
  blob_NewReader : option string;
  blob_Meta : option Meta
}.

(** [blob.Meta = m] *)
Definition setMeta (b : Blob) (m : Meta) : Blob :=
  {| blob_ContentType := blob_ContentType b;
     blob_NewReader := blob_NewReader b;
     blob_Meta := Some m |}.

(** Modelled from the spec: a storage metadata record, a modification
    timestamp (an instant, in nanoseconds). *)
Record Stat : Type := mkStat { ModifiedTime : Z }.

(** [t.Before(u)] *)
Definition Before (t u : Z) : bool := t <? u.

(** What a handler hands back: a blob pointer (possibly nil) and an error
    (possibly nil). *)
Abbreviation Result := (option Blob * option error)%type.

(** ** Parameters of a request (package imagorpath) *)

Record Filter : Type := mkFilter { Name : string; Args : string }.

(** The fields of [imagorpath.Params] the engine reads or writes. *)
Record Params : Type := mkParams {
  p_Params : bool;
  p_Path : string;
  p_Hash : string;
  p_Unsafe : bool;
  p_Meta : bool;
  p_Image : string;
  p_Filters : list Filter
}.

Definition setPath (p : Params) (path : string) : Params :=
  {| p_Params := p_Params p; p_Path := path; p_Hash := p_Hash p;
     p_Unsafe := p_Unsafe p; p_Meta := p_Meta p; p_Image := p_Image p;
     p_Filters := p_Filters p |}.

Definition setFilters (p : Params) (fs : list Filter) : Params :=
  {| p_Params := p_Params p; p_Path := p_Path p; p_Hash := p_Hash p;
     p_Unsafe := p_Unsafe p; p_Meta := p_Meta p; p_Image := p_Image p;
     p_Filters := fs |}.

(** ** What the engine takes from the files that are missing *)

(** The helpers of blob.go and errors.go and the functions of package
    imagorpath that [imagor.go] calls. They are parameters of the whole
    development: every property below holds whatever they compute. *)
Class External : Type := {
  isBlobEmpty : option Blob -> bool;
  checkBlob : Result -> Result;
  NewEmptyBlob : Blob;
  WrapError : error -> Error;
  Parse : string -> Params;
  Apply : Params -> string -> Params;
  GeneratePath : Params -> string
}.

(** [int64(d.Seconds())] for a duration [d] in nanoseconds: the seconds of a
    duration as a floating-point number, cut to an integer. A parameter. *)
Class Durations : Type := { Seconds : Z -> Z }.

(** The status of the sentinel [ErrPass], for which the spec gives no number:
    a parameter. *)
Class ErrorsGo : Type := { ErrPassCode : Z }.

(** Modelled from the spec: errors.go is missing. The [Code] field of
    an [Error], the HTTP status of each error kind. *)
Definition Code `{ErrorsGo} (e : Error) : Z :=
  match e with
  | ErrSignatureMismatch => 403
  | ErrNotFound => 404
  | ErrTimeout => 408
  | ErrUnsupportedFormat => 406
  | ErrMaxResolutionExceeded => 422
  | ErrMaxSizeExceeded => 422
  | ErrInternal => 500
  | ErrPass => ErrPassCode
  end.

(** ** Strings (package strings) *)

(** [strings.Contains(s, substr)] *)
Fixpoint Contains (s substr : string) : bool :=
  if String.prefix substr s then true
  else match s with
       | EmptyString => false
       | String _ s' => Contains s' substr
       end.

(** [strings.TrimPrefix(s, prefix)] *)
Definition TrimPrefix (s prefix : string) : string :=
  if String.prefix prefix s
  then String.substring (String.length prefix)
                        (String.length s - String.length prefix) s
  else s.

(** ** Effects: what a request writes to the storages *)

(** [storage.Put(ctx, key, blob)] and [storage.Delete(ctx, key)], the only
    effects the engine has on its collaborators. Their errors are logged and
    never returned, so a call is recorded and nothing else. *)
Inductive Event : Type :=
| EvPut (storage : string) (ctx : Context) (key : string) (blob : option Blob)
| EvDelete (storage : string) (ctx : Context) (key : string).

(** A computation that returns a value and records the calls it made. *)
Definition Rec (E A : Type) : Type := (A * list E)%type.

Definition ret {E A : Type} (a : A) : Rec E A := (a, []).

Definition bind {E A B : Type} (m : Rec E A) (k : A -> Rec E B) : Rec E B :=
  let '(a, t1) := m in
  let '(b, t2) := k a in
  (b, t1 ++ t2).

Definition value {E A : Type} (m : Rec E A) : A := fst m.
Definition trace {E A : Type} (m : Rec E A) : list E := snd m.

Abbreviation M := (Rec Event).

Declare Scope engine_scope.
Delimit Scope engine_scope with engine.
Notation "x <- c ;; k" := (bind c (fun x => k))
  (at level 100, c at next level, right associativity) : engine_scope.
Notation "c ;;; k" := (bind c (fun _ => k))
  (at level 100, right associativity) : engine_scope.

(** ** HTTP responses *)

(** What the handler writes as a body. [RedirectHTML]: the short HTML page
    with a link that [http.Redirect] writes. [Aborted]: the handler
    dereferenced a nil blob or reader and nothing more was written. *)
Inductive Body : Type :=
| NoBody
| VersionJSON
| ParamsJSON (p : Params)
| MetaJSON (m : Meta)
| ErrorJSON (e : Error)
| Bytes (data : string)
| RedirectHTML (url : string)
| Aborted.

(** The response as the recorder of the tests sees it: the status (200 unless
    [WriteHeader] says otherwise), the headers the handler sets, the body.
    [hdr_Cache] holds the arguments of [setCacheHeaders], [hdr_Location] the
    URL given to [http.Redirect]. *)
Record Response : Type := mkResponse {
  status : Z;
  hdr_ContentType : option string;
  hdr_Location : option string;
  hdr_Cache : option (Z * Z);
  body : Body
}.

Module Imagor.

(** *** Collaborators *)

Record Loader : Type := mkLoader {
  l_Get : Request -> string -> Result
}.

(** A storage, known by a name; [Put] and [Delete] show up as events. *)
Record Storage : Type := mkStorage {
  s_name : string;
  s_Get : Request -> string -> Result;
  s_Stat : Context -> string -> option Stat * option error;
  s_Meta : Context -> string -> option Meta * option error
}.

(** [type LoadFunc]: from an image key to a blob and an error; a call of it
    may write to the storages. *)
Definition LoadFunc : Type := string -> M Result.

(** What a processor does with the [load] function it is given: it returns
    its blob and its error, or it asks [load] for an image and goes on from
    the answer. *)
Inductive Steps : Type :=
| Return (res : Result)
| Load (image : string) (next : Result -> Steps).

(** A processor, known by the steps it takes on a context, a blob and the
    params. *)
Record Processor : Type := mkProcessor {
  p_Steps : Context -> option Blob -> Params -> Steps
}.

(** The steps of a processor, each [Load] answered by [load]. *)
Fixpoint follow (load : LoadFunc) (steps : Steps) : M Result :=
  match steps with
  | Return res => ret res
  | Load image next => (res <- load image ;; follow load (next res))%engine
  end.

(** [processor.Process(ctx, blob, p, load)] *)
Definition Process (processor : Processor) (ctx : Context)
    (blob : option Blob) (p : Params) (load : LoadFunc) : M Result :=
  follow load (p_Steps processor ctx blob p).

(** [singleflight.Group] as one caller meets it: for each key, the results of
    the calls that other requests have in flight, in the order in which this
    caller will receive them. No entry, or an empty list: nothing is in flight
    and the caller leads. *)
Abbreviation Group := (gmap string (list Result)).

(** [type Imagor struct]; the logger and the debug flag only produce log
    lines and are left out. [sema] is [None] for a nil semaphore, and else
    what [sema.Acquire(ctx, 1)] returns. *)
Record Imagor : Type := mkImagor {
  Unsafe : bool;
  Signer : option (string -> string);
  BasePathRedirect : string;
  Loaders : list Loader;
  Storages : list Storage;
  ResultStorages : list Storage;
  Processors : list Processor;
  RequestTimeout : Z;
  LoadTimeout : Z;
  SaveTimeout : Z;
  ProcessTimeout : Z;
  CacheHeaderTTL : Z;
  CacheHeaderSWR : Z;
  AutoWebP : bool;
  AutoAVIF : bool;
  ModifiedTimeCheck : bool;
  DisableErrorBody : bool;
  DisableParamsEndpoint : bool;
  BaseParams : string;
  ResultKey : option (Params -> string);
  g : Group;
  sema : option (Context -> option error)
}.

Section Engine.
Context `{ErrorsGo} `{External}.

(** *** load *)

(** The three values [load] returns: blob, origin, err. *)
Definition Loaded : Type := (option Blob * option Storage * option error)%type.

(** The meta-mode loop over the storages: [inl] when the loop returns from
    inside, [inr err] when it runs to its end. *)
Fixpoint load_meta (ctx : Context) (key : string) (storages : list Storage)
    (err : option error) : Loaded + option error :=
  match storages with
  | [] => inr err
  | storage :: rest =>
      let '(m, e) := s_Meta storage ctx key in
      match e, m with
      | None, Some m' => inl (Some (setMeta NewEmptyBlob m'), Some storage, err)
      | _, _ => load_meta ctx key rest e
      end
  end.

(** The bytes-mode loop over the storages; the loop state is [(blob, err)]. *)
Fixpoint load_storages (r : Request) (key : string) (storages : list Storage)
    (blob : option Blob) (err : option error)
    : Loaded + (option Blob * option error) :=
  match storages with
  | [] => inr (blob, err)
  | storage :: rest =>
      let '(b, e) := checkBlob (s_Get storage r key) in
      if negb (isBlobEmpty b) then
        match e with
        | None => inl (b, Some storage, None)
        | Some _ => load_storages r key rest b e
        end
      else load_storages r key rest blob e
  end.

(** The loop over the loaders; [origin] is still nil when it returns. *)
Fixpoint load_loaders (r : Request) (key : string) (loaders : list Loader)
    (blob : option Blob) (err : option error)
    : Loaded + (option Blob * option error) :=
  match loaders with
  | [] => inr (blob, err)
  | loader :: rest =>
      let '(b, e) := checkBlob (l_Get loader r key) in
      if negb (isBlobEmpty b) then
        match e with
        | None => inl (b, None, None)
        | Some _ => load_loaders r key rest b e
        end
      else load_loaders r key rest blob e
  end.

(** The end of [load], after the loops. *)
Definition load_finish (metaMode : bool) (blob : option Blob)
    (err : option error) : Loaded :=
  match err with
  | None =>
      if isBlobEmpty blob && negb metaMode
      then (blob, None, Some (EImagor ErrNotFound))
      else (blob, None, None)
  | Some _ => (blob, None, err)
  end.

Definition load (app : Imagor) (r : Request) (storages : list Storage)
    (loaders : list Loader) (key : string) (metaMode : bool) : Loaded :=
  if decide (key = "") then (None, None, Some (EImagor ErrNotFound))
  else
    let ctx := rctx r in
    let ctx := if 0 <? LoadTimeout app
               then WithTimeout ctx (LoadTimeout app) else ctx in
    let r := if 0 <? LoadTimeout app then WithContext r ctx else r in
    if metaMode then
      match load_meta ctx key storages None with
      | inl res => res
      | inr err => load_finish metaMode None err
      end
    else
      match load_storages r key storages None None with
      | inl res => res
      | inr (blob, err) =>
          match load_loaders r key loaders blob err with
          | inl res => res
          | inr (blob, err) => load_finish metaMode blob err
          end
      end.

(** *** storageStat, loadResult *)

Fixpoint storageStat_loop (ctx : Context) (key : string)
    (storages : list Storage) (last : option Stat * option error)
    : option Stat * option error :=
  match storages with
  | [] => last
  | storage :: rest =>
      match s_Stat storage ctx key with
      | (Some stat, None) => (Some stat, None)
      | other => storageStat_loop ctx key rest other
      end
  end.

Definition storageStat (app : Imagor) (ctx : Context) (key : string)
    : option Stat * option error :=
  storageStat_loop ctx key (Storages app) (None, None).

Definition loadResult (app : Imagor) (r : Request)
    (resultKey imageKey : string) (metaMode : bool) : option Blob :=
  let ctx := rctx r in
  let '(blob, origin, err) := load app r (ResultStorages app) [] resultKey metaMode in
  match err with
  | None =>
      if negb (isBlobEmpty blob) || metaMode then
        match (if ModifiedTimeCheck app then origin else None) with
        | Some origin =>
            match s_Stat origin ctx resultKey with
            | (Some resStat, None) =>
                match storageStat app ctx imageKey with
                | (Some sourceStat, None) =>
                    if negb (Before (ModifiedTime resStat) (ModifiedTime sourceStat))
                    then blob else None
                | _ => None
                end
            | _ => None
            end
        | None => blob
        end
      else None
  | Some _ => None
  end.

(** *** save, del *)

(** [save]: one [Put] per storage, each on its own goroutine, all joined
    before the call returns; recorded in the order of the list. *)
Definition save (app : Imagor) (ctx : Context) (storages : list Storage)
    (key : string) (blob : option Blob) : M unit :=
  let ctx := if 0 <? SaveTimeout app
             then WithTimeout ctx (SaveTimeout app) else ctx in
  (tt, map (fun storage => EvPut (s_name storage) ctx key blob) storages).

(** [del]: one [Delete] per storage, joined likewise. *)
Definition del (app : Imagor) (ctx : Context) (storages : list Storage)
    (key : string) : M unit :=
  (tt, map (fun storage => EvDelete (s_name storage) ctx key) storages).

(** *** suppress *)

(** The part of [suppress] after the marker test: [g.DoChan] and the
    [select]. [V] is the type of the variables that [fn] captures and
    assigns ([isSave] in [loadStorage]); they keep their value [v0] when [fn]
    is not invoked by this call.

    With nothing in flight for the key, [DoChan] runs [fn] on the context
    that carries the marker; this call set [isCanceled] itself whenever the
    error is a cancellation, so it never retries, and it returns what [fn]
    returned unless its own context fires first: then it returns at once,
    before [fn] has assigned the variables it captures, and [fn] goes on
    writing what it writes. With a call in flight, [fn] is not invoked: the
    caller receives that call's result, and tries again when the result is a
    cancellation (the leader has forgotten the key) while its own context
    is live. *)
Fixpoint suppress_wait {V : Type} (pending : list Result) (v0 : V)
    (ctx : Context) (key : string) (fn : Context -> M (Result * V))
    : M (Result * V) :=
  match pending with
  | [] =>
      (rv <- fn (WithValue ctx key) ;;
       match ctx_err ctx with
       | Some e => ret ((None, Some e), v0)
       | None => ret rv
       end)%engine
  | res :: later =>
      match ctx_err ctx with
      | Some e => ret ((None, Some e), v0)
      | None =>
          if errors_Is (snd res) Canceled
          then suppress_wait later v0 ctx key fn
          else ret (res, v0)
      end
  end.

Definition suppress {V : Type} (app : Imagor) (v0 : V) (ctx : Context)
    (key : string) (fn : Context -> M (Result * V)) : M (Result * V) :=
  if isAcquired ctx key then fn ctx
  else suppress_wait (default [] (g app !! key)) v0 ctx key fn.

(** *** loadStorage *)

(** The function literal that [loadStorage] hands to [suppress]; the boolean
    is the captured [isSave]. *)
Definition loadStorage_fn (app : Imagor) (r : Request) (key : string)
    (ctx : Context) : M (Result * bool) :=
  let r := WithContext r ctx in
  let '(blob, origin, err) := load app r (Storages app) (Loaders app) key false in
  match err, origin, Storages app with
  | None, None, _ :: _ =>
      if negb (isBlobEmpty blob)
      then (save app ctx (Storages app) key blob ;;; ret ((blob, err), true))%engine
      else ret ((blob, err), false)
  | _, _, _ => ret ((blob, err), false)
  end.

Definition loadStorage (app : Imagor) (r : Request) (key : string)
    : M (option Blob * bool * option error) :=
  (rv <- suppress app false (rctx r) ("img:" +:+ key) (loadStorage_fn app r key) ;;
   ret (fst (fst rv), snd rv, snd (fst rv)))%engine.

(** *** Do *)

(** The loop over the processors, started on the source blob with the error
    of the source fetch (nil when the loop is reached). *)
Fixpoint process_loop (ctx : Context) (p : Params) (load : LoadFunc)
    (processors : list Processor) (blob : option Blob) (err : option error)
    : M Result :=
  match processors with
  | [] => ret (blob, err)
  | processor :: rest =>
      (res <- Process processor ctx blob p load ;;
       let '(b, e) := checkBlob res in
       match e with
       | None => ret (b, None)
       | Some e' =>
           if decide (e' = EImagor ErrPass) then
             process_loop ctx p load rest
               (if negb (isBlobEmpty b) then b else blob) err
           else if errors_Is (Some e') DeadlineExceeded
           then ret (blob, Some e')
           else process_loop ctx p load rest blob (Some e')
       end)%engine
  end.

(** The end of the function literal of [Do], from the process timeout on:
    the processors, the write to the result storages, the delete of a source
    that was saved back. [blob] and [isSave] come from [loadStorage]; [err]
    is nil at this point. *)
Definition Do_process (app : Imagor) (p : Params) (resultKey : string)
    (load : LoadFunc) (ctx : Context) (blob : option Blob) (isSave : bool)
    : M (Result * unit) :=
  let ctx := if 0 <? ProcessTimeout app
             then WithTimeout ctx (ProcessTimeout app) else ctx in
  (out <- process_loop ctx p load (Processors app) blob None ;;
   let '(blob, err) := out in
   (match err, ResultStorages app with
    | None, _ :: _ => save app ctx (ResultStorages app) resultKey blob
    | _, _ => ret tt
    end) ;;;
   (match err with
    | Some _ => if isSave then del app ctx (Storages app) (p_Image p)
                else ret tt
    | None => ret tt
    end) ;;;
   ret ((blob, err), tt))%engine.

(** The function literal that [Do] hands to [suppress]. [r] is the request of
    [Do], whose context does not carry the marker; [ctx] is the context
    [suppress] passes in. *)
Definition Do_fn (app : Imagor) (r : Request) (p : Params)
    (resultKey : string) (load : LoadFunc) (ctx : Context) : M (Result * unit) :=
  match (if negb (p_Meta p)
         then loadResult app r resultKey (p_Image p) false else None) with
  | Some blob => ret ((Some blob, None), tt)
  | None =>
      match (match sema app with
             | Some acquire => acquire ctx
             | None => None
             end) with
      | Some err => ret ((None, Some err), tt)
      | None =>
          (ls <- loadStorage app r (p_Image p) ;;
           let '(blob, isSave, err) := ls in
           match err with
           | Some _ => ret ((blob, err), tt)
           | None =>
               if isBlobEmpty blob then ret ((blob, err), tt)
               else Do_process app p resultKey load ctx blob isSave
           end)%engine
      end
  end.

(** The auto-format step of [Do]. *)
Definition autoFormat (app : Imagor) (r : Request) (p : Params) : Params :=
  if AutoWebP app || AutoAVIF app then
    let hasFormat :=
      existsb (fun f => bool_decide (Name f = "format")) (p_Filters p) in
    if negb hasFormat then
      let accept := Accept r in
      if AutoAVIF app && Contains accept "image/avif" then
        let p := setFilters p (p_Filters p ++ [mkFilter "format" "avif"]) in
        setPath p (GeneratePath p)
      else if AutoWebP app && Contains accept "image/webp" then
        let p := setFilters p (p_Filters p ++ [mkFilter "format" "webp"]) in
        setPath p (GeneratePath p)
      else p
    else p
  else p.

(** [Do]. The [load] it gives the processors is [loadStorage] on the request
    of [Do], without the flag: what a load asked for by a processor saves
    back is part of what the request writes. *)
Definition Do (app : Imagor) (r : Request) (p : Params) : M Result :=
  let ctx := rctx r in
  let ctx := if 0 <? RequestTimeout app
             then WithTimeout ctx (RequestTimeout app) else ctx in
  let r := if 0 <? RequestTimeout app then WithContext r ctx else r in
  if negb (Unsafe app && p_Unsafe p)
     && match Signer app with
        | Some sign => negb (bool_decide (sign (p_Path p) = p_Hash p))
        | None => false
        end
  then ret (None, Some (EImagor ErrSignatureMismatch))
  else
    let p := if bool_decide (BaseParams app = "") then p
             else let p := Apply p (BaseParams app) in
                  setPath p (GeneratePath p) in
    let p := autoFormat app r p in
    let resultKey := match ResultKey app with
                     | Some generate => generate p
                     | None => TrimPrefix (p_Path p) "meta/"
                     end in
    let load : LoadFunc := fun image =>
      (ls <- loadStorage app r image ;;
       let '(b, _, err) := ls in ret (b, err))%engine in
    match (if p_Meta p
           then loadResult app r resultKey (p_Image p) true else None) with
    | Some blob => ret (Some blob, None)
    | None =>
        (rv <- suppress app tt ctx ("res:" +:+ resultKey)
                 (Do_fn app r p resultKey load) ;;
         ret (fst rv))%engine
    end.

(** *** ServeHTTP *)

(** A body, unless the method is HEAD. *)
Definition unlessHead (r : Request) (b : Body) : Body :=
  if bool_decide (Method r = "HEAD") then NoBody else b.

(** [writeJSON] and [writeJSONIndent], after an optional [WriteHeader]. *)
Definition writeJSON (r : Request) (code : Z) (b : Body) : Response :=
  mkResponse code (Some "application/json") None None (unlessHead r b).

(** [writeBody] on the reader of a blob. *)
Definition writeBody (r : Request) (code : Z) (ctype : option string)
    (cache : option (Z * Z)) (reader : string) : Response :=
  mkResponse code ctype None cache (unlessHead r (Bytes reader)).

Definition ServeHTTP (app : Imagor) (r : Request) : M Response :=
  if negb (bool_decide (Method r = "GET")) && negb (bool_decide (Method r = "HEAD"))
  then ret (mkResponse 405 None None None NoBody)
  else
    let path := EscapedPath r in
    if bool_decide (path = "/") || bool_decide (path = "") then
      if bool_decide (BasePathRedirect app = "")
      then ret (writeJSON r 200 VersionJSON)
      else ret (mkResponse 307 (Some "text/html; charset=utf-8")
                  (Some (BasePathRedirect app)) None
                  (unlessHead r (RedirectHTML (BasePathRedirect app))))
    else
      let p := Parse path in
      if p_Params p then
        if negb (DisableParamsEndpoint app)
        then ret (writeJSON r 200 (ParamsJSON p))
        else ret (mkResponse 200 None None None NoBody)
      else
        (res <- Do app r p ;;
         let '(blob, err) := checkBlob res in
         match (match err, blob with
                | None, Some b => if p_Meta p then blob_Meta b else None
                | _, _ => None
                end) with
         | Some m => ret (writeJSON r 200 (MetaJSON m))
         | None =>
             let empty := isBlobEmpty blob in
             match empty, blob with
             | false, None => ret (mkResponse 200 None None None Aborted)
             | _, _ =>
                 let ctype := if empty then None
                              else option_map blob_ContentType blob in
                 match err with
                 | Some e0 =>
                     if errors_Is err Canceled
                     then ret (mkResponse 499 ctype None None NoBody)
                     else
                       let e := WrapError e0 in
                       if DisableErrorBody app
                       then ret (mkResponse (Code e) ctype None None NoBody)
                       else
                         match (if empty then None
                                else blob ≫= blob_NewReader) with
                         | Some reader => ret (writeBody r (Code e) ctype None reader)
                         | None => ret (writeJSON r (Code e) (ErrorJSON e))
                         end
                 | None =>
                     if empty then ret (mkResponse 200 ctype None None NoBody)
                     else
                       match blob ≫= blob_NewReader with
                       | Some reader =>
                           ret (writeBody r 200 ctype
                                  (Some (CacheHeaderTTL app, CacheHeaderSWR app))
                                  reader)
                       | None =>
                           ret (mkResponse 200 ctype None
                                  (Some (CacheHeaderTTL app, CacheHeaderSWR app))
                                  Aborted)
                       end
                 end
             end
         end)%engine.

(** *** Startup, Shutdown *)

(** The two other methods of a processor, and the name the processor is known
    by. *)
Record Lifecycle : Type := mkLifecycle {
  lc_name : string;
  lc_Startup : Context -> option error;
  lc_Shutdown : Context -> option error
}.

(** A call of [Startup] or of [Shutdown] on a processor. *)
Inductive Call : Type :=
| Started (name : string)
| Stopped (name : string).

(** [Startup], over the processors of the engine. *)
Fixpoint Startup (ctx : Context) (processors : list Lifecycle)
    : Rec Call (option error) :=
  match processors with
  | [] => ret None
  | processor :: rest =>
      match lc_Startup processor ctx with
      | Some err => (Some err, [Started (lc_name processor)])
      | None =>
          bind (tt, [Started (lc_name processor)]) (fun _ => Startup ctx rest)
      end
  end.

(** [Shutdown], over the processors of the engine. *)
Fixpoint Shutdown (ctx : Context) (processors : list Lifecycle)
    : Rec Call (option error) :=
  match processors with
  | [] => ret None
  | processor :: rest =>
      match lc_Shutdown processor ctx with
      | Some err => (Some err, [Stopped (lc_name processor)])
      | None =>
          bind (tt, [Stopped (lc_name processor)]) (fun _ => Shutdown ctx rest)
      end
  end.

(** *** getCacheControl *)

(** [getCacheControl]; [%d] prints a number in decimal. *)
Definition getCacheControl `{Durations} (ttl swr : Z) : string :=
  if ttl =? 0 then "private, no-cache, no-store, must-revalidate"
  else
    let ttlSec := Seconds ttl in
    let val := "public, s-maxage=" +:+ pretty ttlSec +:+ ", max-age="
               +:+ pretty ttlSec +:+ ", no-transform" in
    if (0 <? swr) && (swr <? ttl)
    then val +:+ ", stale-while-revalidate=" +:+ pretty (Seconds swr)
    else val.

End Engine.
End Imagor.

(** ** The earlier engine: loaders, storages and files *)

Module Legacy.

(** Modelled from the spec: file.go is missing. A file is a handle to
    image bytes; [file_Bytes] is what [file.Bytes()] returns. *)
Record File : Type := mkFile { file_Bytes : string }.

(** A loader; [l_store] names the storage the same object also is, when the
    object is a [Store]. *)
Record Loader : Type := mkLoader {
  l_Load : Request -> string -> option File * option error;
  l_store : option string
}.

(** A storage, known by a name; [Save] shows up as an event. *)
Record Storage : Type := mkStorage { s_name : string }.

(** [type LoadFunc]: from an image key to a file and an error. *)
Definition LoadFunc : Type := string -> option File * option error.

Record Processor : Type := mkProcessor {
  Process : Context -> option File -> Params -> LoadFunc
            -> option File * option Meta * option error
}.

(** [storage.Save(ctx, image, file)] *)
Inductive Event : Type :=
| EvSave (storage : string) (ctx : Context) (image : string) (file : option File).

(** [singleflight.Group] as one caller meets it: for each key, the result of
    the call another request has in flight, if there is one. *)
Abbreviation Group := (gmap string (option File * option error)).

Record Imagor : Type := mkImagor {
  Version : string;
  Unsafe : bool;
  Secret : string;
  Loaders : list Loader;
  Storages : list Storage;
  Processors : list Processor;
  RequestTimeout : Z;
  LoadTimeout : Z;
  SaveTimeout : Z;
  CacheHeaderTTL : Z;
  g : Group
}.

(** What this revision takes from the files that are missing. *)
Class External : Type := {
  IsFileEmpty : option File -> bool;
  WrapError : error -> error;
  Sign : string -> string -> string;
  Parse : string -> Params;
  DetectContentType : string -> string
}.

Section Engine.
Context `{ErrorsGo} `{External}.

(** [save]: one [Save] per storage other than the one the file came from.
    This is the call with a positive save timeout: with none, [cancel] is
    still nil when the deferred call runs and [save] panics on return, after
    the saves. *)
Definition save (app : Imagor) (ctx : Context) (from : option string)
    (storages : list Storage) (image : string) (file : option File)
    : Rec Event unit :=
  let ctx := if 0 <? SaveTimeout app
             then WithTimeout ctx (SaveTimeout app) else ctx in
  (tt, map (fun storage => EvSave (s_name storage) ctx image file)
         (filter (fun storage => Some (s_name storage) ≠ from) storages)).

(** [suppress]: [g.Do(key, fn)]. *)
Definition suppress (app : Imagor) (key : string)
    (fn : Rec Event (option File * option error))
    : Rec Event (option File * option error) :=
  match g app !! key with
  | Some res => ret res
  | None => fn
  end.

(** The loop over the loaders; the state is [(file, err)], and the loop
    breaks with the store the file came from. *)
Fixpoint load_loop (loadReq : Request) (image : string) (loaders : list Loader)
    (file : option File) (err : option error)
    : option File * option error * option string :=
  match loaders with
  | [] => (file, err, None)
  | loader :: rest =>
      let '(f, e) := l_Load loader loadReq image in
      let file := if negb (IsFileEmpty f) then f else file in
      match e with
      | None => (file, None, l_store loader)
      | Some _ => load_loop loadReq image rest file e
      end
  end.

Definition load (app : Imagor) (r : Request) (image : string)
    : Rec Event (option File * option error) :=
  let ctx := rctx r in
  let loadCtx := if 0 <? LoadTimeout app
                 then WithTimeout ctx (LoadTimeout app) else ctx in
  let loadReq := if 0 <? LoadTimeout app then WithContext r loadCtx else r in
  suppress app image
    (let '(file, err, fromStore) :=
       load_loop loadReq image (Loaders app) None None in
     match err with
     | None =>
         if IsFileEmpty file then ret (file, err)
         else match Storages app with
              | _ :: _ =>
                  (save app ctx fromStore (Storages app) image file ;;;
                   ret (file, err))%engine
              | [] => ret (file, err)
              end
     | Some e =>
         if negb (errors_Is err Canceled) && bool_decide (e = EImagor ErrPass)
         then ret (file, Some (EImagor ErrNotFound))
         else ret (file, err)
     end).

(** The loop over the processors; the state is [(file, meta, err)]. *)
Fixpoint process_loop (ctx : Context) (p : Params) (load : LoadFunc)
    (processors : list Processor) (file : option File) (meta : option Meta)
    (err : option error) : option File * option Meta * option error :=
  match processors with
  | [] => (file, meta, err)
  | processor :: rest =>
      let '(f, m, e) := Process processor ctx file p load in
      match e with
      | None => (f, m, None)
      | Some e' =>
          if decide (e' = EImagor ErrPass) then
            process_loop ctx p load rest
              (if negb (IsFileEmpty f) then f else file) meta err
          else process_loop ctx p load rest file meta (Some e')
      end
  end.

Definition Do (app : Imagor) (r : Request) (p : Params)
    : Rec Event (option File * option Meta * option error) :=
  let ctx := rctx r in
  let ctx := if 0 <? RequestTimeout app
             then WithTimeout ctx (RequestTimeout app) else ctx in
  let r := if 0 <? RequestTimeout app then WithContext r ctx else r in
  if negb (Unsafe app && p_Unsafe p)
     && negb (bool_decide (Sign (p_Path p) (Secret app) = p_Hash p))
  then ret (None, None, Some (EImagor ErrSignatureMismatch))
  else
    (fe <- load app r (p_Image p) ;;
     let '(file, err) := fe in
     match err with
     | Some _ => ret (file, None, err)
     | None =>
         let load : LoadFunc := fun image => value (load app r image) in
         if IsFileEmpty file then ret (file, None, err)
         else ret (process_loop ctx p load (Processors app) file None err)
     end)%engine.

(** [resJSON], after an optional [WriteHeader]. *)
Definition resJSON (code : Z) (b : Body) : Response :=
  mkResponse code (Some "application/json") None None b.

(** The part of [ServeHTTP] that follows the call of [Do]: how its three
    results are rendered. [setCacheHeaders] has one argument here, the TTL. *)
Definition respond (app : Imagor) (p : Params)
    (res : option File * option Meta * option error) : Response :=
  let '(file, meta, err) := res in
  match IsFileEmpty file, file with
  | false, None => mkResponse 200 None None None Aborted
  | empty, _ =>
      let buf := if empty then "" else from_option file_Bytes "" file in
      let ln := String.length buf in
      match meta, p_Meta p with
      | Some m, true => resJSON 200 (MetaJSON m)
      | _, _ =>
          let ctype :=
            match meta with
            | Some m => Some (ContentType m)
            | None => if (0 <? ln)%nat
                      then Some (DetectContentType buf) else None
            end in
          match err with
          | Some e0 =>
              match WrapError e0 with
              | EImagor e =>
                  let e := if decide (e = ErrPass) then ErrNotFound else e in
                  if (0 <? ln)%nat
                  then mkResponse (Code e) ctype None None (Bytes buf)
                  else resJSON (Code e) (ErrorJSON e)
              | _ => resJSON 200 (ErrorJSON ErrInternal)
              end
          | None =>
              mkResponse 200 ctype None (Some (CacheHeaderTTL app, 0)) (Bytes buf)
          end
      end
  end.

Definition ServeHTTP (app : Imagor) (r : Request) : Rec Event Response :=
  let path := EscapedPath r in
  if bool_decide (path = "/") then ret (resJSON 200 VersionJSON)
  else
    let p := Parse path in
    if p_Params p then ret (resJSON 200 (ParamsJSON p))
    else (res <- Do app r p ;; ret (respond app p res))%engine.

(** [type Option]: a function that sets fields of the engine. *)
Definition Option : Type := Imagor -> Imagor.

(** [time.Second], in nanoseconds. *)
Definition Second : Z := 1000000000.

(** [New]: the defaults, the options in order, then the load timeout brought
    under the request timeout. *)
Definition New (options : list Option) : Imagor :=
  let app := {| Version := "dev"; Unsafe := false; Secret := "";
                Loaders := []; Storages := []; Processors := [];
                RequestTimeout := Second * 30; LoadTimeout := Second * 20;
                SaveTimeout := Second * 20;
                CacheHeaderTTL := Second * 3600 * 24; g := ∅ |} in
  let app := fold_left (fun app option => option app) options app in
  if (RequestTimeout app <? LoadTimeout app) || (LoadTimeout app =? 0)
  then {| Version := Version app; Unsafe := Unsafe app; Secret := Secret app;
          Loaders := Loaders app; Storages := Storages app;
          Processors := Processors app;
          RequestTimeout := RequestTimeout app;
          LoadTimeout := RequestTimeout app;
          SaveTimeout := SaveTimeout app;
          CacheHeaderTTL := CacheHeaderTTL app; g := g app |}
  else app.

End Engine.
End Legacy.

(** ** Vocabulary of the properties *)

Section Vocabulary.
Context `{External} `{Legacy.External}.

(** The request the handlers of [load] receive: the caller's, under the load
    timeout when one is configured. *)
Definition loadRequest (app : Imagor.Imagor) (r : Request) : Request :=
  if 0 <? Imagor.LoadTimeout app
  then WithContext r (WithTimeout (rctx r) (Imagor.LoadTimeout app))
  else r.

(** A handler as [load] sees it in bytes mode: the storage it is (nil for a
    loader) and the checked outcome of its [Get]. *)
Definition Handled : Type := (option Imagor.Storage * Result)%type.

Definition h_blob (h : Handled) : option Blob := fst (snd h).
Definition h_err (h : Handled) : option error := snd (snd h).

(** The handlers of a bytes-mode load, in the order in which they are
    consulted: the storages, then the loaders. *)
Definition handlers (app : Imagor.Imagor) (r : Request)
    (storages : list Imagor.Storage) (loaders : list Imagor.Loader)
    (key : string) : list Handled :=
  map (fun s => (Some s, checkBlob (Imagor.s_Get s (loadRequest app r) key))) storages
  ++ map (fun l => (None, checkBlob (Imagor.l_Get l (loadRequest app r) key))) loaders.

(** A cleanly successful handler: a non-empty blob and a nil error. *)
Definition clean (h : Handled) : bool :=
  negb (isBlobEmpty (h_blob h)) && bool_decide (h_err h = None).

(** The first non-empty blob among the outcomes, nil if there is none. *)
Fixpoint first_nonempty (hs : list Handled) : option Blob :=
  match hs with
  | [] => None
  | h :: rest => if negb (isBlobEmpty (h_blob h)) then h_blob h
                 else first_nonempty rest
  end.

(** The most recent non-empty blob among the outcomes, starting from [blob]. *)
Fixpoint latest_nonempty (hs : list Handled) (blob : option Blob) : option Blob :=
  match hs with
  | [] => blob
  | h :: rest =>
      latest_nonempty rest (if negb (isBlobEmpty (h_blob h)) then h_blob h else blob)
  end.

(** The error of the last outcome, starting from [err]. *)
Fixpoint latest_err (hs : list Handled) (err : option error) : option error :=
  match hs with
  | [] => err
  | h :: rest => latest_err rest (h_err h)
  end.

(** The handlers [load] gets to consult: up to and including the first clean
    one. *)
Fixpoint consulted (hs : list Handled) : list Handled :=
  match hs with
  | [] => []
  | h :: rest => if clean h then [h] else h :: consulted rest
  end.

(** One loop over outcomes stands for both loops of [load]. *)
Fixpoint scan (hs : list Handled) (blob : option Blob) (err : option error)
    : Imagor.Loaded + (option Blob * option error) :=
  match hs with
  | [] => inr (blob, err)
  | h :: rest =>
      if negb (isBlobEmpty (h_blob h)) then
        match h_err h with
        | None => inl (h_blob h, fst h, None)
        | Some _ => scan rest (h_blob h) (h_err h)
        end
      else scan rest blob (h_err h)
  end.

(** The protocol of the processor chain, one rule per case. The state of the
    chain is the current blob and the recorded error; the last argument is
    what the chain ends with. *)
Inductive chain (ctx : Context) (p : Params) (load : Imagor.LoadFunc)
    : list Imagor.Processor -> option Blob -> option error -> Result -> Prop :=
| chain_end blob err :
    chain ctx p load [] blob err (blob, err)
| chain_success q rest blob err b :
    checkBlob (value (Imagor.Process q ctx blob p load)) = (b, None) ->
    chain ctx p load (q :: rest) blob err (b, None)
| chain_pass_blob q rest blob err b res :
    checkBlob (value (Imagor.Process q ctx blob p load)) = (b, Some (EImagor ErrPass)) ->
    isBlobEmpty b = false ->
    chain ctx p load rest b err res ->
    chain ctx p load (q :: rest) blob err res
| chain_pass_empty q rest blob err b res :
    checkBlob (value (Imagor.Process q ctx blob p load)) = (b, Some (EImagor ErrPass)) ->
    isBlobEmpty b = true ->
    chain ctx p load rest blob err res ->
    chain ctx p load (q :: rest) blob err res
| chain_error q rest blob err b e res :
    checkBlob (value (Imagor.Process q ctx blob p load)) = (b, Some e) ->
    e ≠ EImagor ErrPass ->
    errors_Is (Some e) DeadlineExceeded = false ->
    chain ctx p load rest blob (Some e) res ->
    chain ctx p load (q :: rest) blob err res
| chain_deadline q rest blob err b e :
    checkBlob (value (Imagor.Process q ctx blob p load)) = (b, Some e) ->
    errors_Is (Some e) DeadlineExceeded = true ->
    chain ctx p load (q :: rest) blob err (blob, Some e).

(** The context [save] works under. *)
Definition saveCtx (app : Imagor.Imagor) (ctx : Context) : Context :=
  if 0 <? Imagor.SaveTimeout app
  then WithTimeout ctx (Imagor.SaveTimeout app) else ctx.

(** The context the processors work under. *)
Definition processCtx (app : Imagor.Imagor) (ctx : Context) : Context :=
  if 0 <? Imagor.ProcessTimeout app
  then WithTimeout ctx (Imagor.ProcessTimeout app) else ctx.

(** A write of [blob] under [key] to every storage of a list. *)
Definition puts (ctx : Context) (storages : list Imagor.Storage)
    (key : string) (blob : option Blob) : list Event :=
  map (fun s => EvPut (Imagor.s_name s) ctx key blob) storages.

(** A delete of [key] on every storage of a list. *)
Definition deletes (ctx : Context) (storages : list Imagor.Storage)
    (key : string) : list Event :=
  map (fun s => EvDelete (Imagor.s_name s) ctx key) storages.

(** A [Stat] that succeeded. *)
Definition stat_ok (res : option Stat * option error) : option Stat :=
  match res with
  | (Some stat, None) => Some stat
  | _ => None
  end.

(** [stat] is what the first source storage whose [Stat] succeeds reports. *)
Definition first_stat (ctx : Context) (key : string)
    (storages : list Imagor.Storage) (stat : Stat) : Prop :=
  exists pre s post,
    storages = pre ++ s :: post
    /\ Forall (fun s' => stat_ok (Imagor.s_Stat s' ctx key) = None) pre
    /\ stat_ok (Imagor.s_Stat s ctx key) = Some stat.

(** A processor that declines on [blob]: [ErrPass] with an empty blob. *)
Definition declines (ctx : Context) (p : Params) (load : Imagor.LoadFunc)
    (blob : option Blob) (q : Imagor.Processor) : Prop :=
  exists b, checkBlob (value (Imagor.Process q ctx blob p load)) = (b, Some (EImagor ErrPass))
            /\ isBlobEmpty b = true.

(** The request the loaders of the earlier engine receive. *)
Definition legacyLoadRequest (app : Legacy.Imagor) (r : Request) : Request :=
  if 0 <? Legacy.LoadTimeout app
  then WithContext r (WithTimeout (rctx r) (Legacy.LoadTimeout app))
  else r.

(** A handler that fails without a blob. *)
Definition failed (h : Handled) : Prop :=
  isBlobEmpty (h_blob h) = true /\ h_err h ≠ None.

(** [ErrPass] rewritten to [ErrNotFound], any other error left as it is. *)
Definition passToNotFound (err : option error) : option error :=
  match err with
  | Some (EImagor ErrPass) => Some (EImagor ErrNotFound)
  | other => other
  end.

(** A [Meta] that succeeded: metadata and a nil error. *)
Definition meta_ok (res : option Meta * option error) : option Meta :=
  match res with
  | (Some m, None) => Some m
  | _ => None
  end.

(** The error the meta-mode loop of [load] holds after the storages [pre]:
    the error of the last of them, [err] when there is none. *)
Fixpoint held_err (ctx : Context) (key : string) (pre : list Imagor.Storage)
    (err : option error) : option error :=
  match pre with
  | [] => err
  | s :: rest => held_err ctx key rest (snd (Imagor.s_Meta s ctx key))
  end.

(** The filters of [p] hold a [format] filter. *)
Definition hasFormat (p : Params) : bool :=
  existsb (fun f => bool_decide (Name f = "format")) (p_Filters p).

(** The first result a waiting caller can take: the first one in flight that
    is not a cancellation. *)
Fixpoint first_settled (pending : list Result) : option Result :=
  match pending with
  | [] => None
  | res :: later =>
      if errors_Is (snd res) Canceled then first_settled later else Some res
  end.

(** The params [Do] works on after the signature gate: the base params
    applied, then the auto-format. *)
Definition normalize (app : Imagor.Imagor) (r : Request) (p : Params) : Params :=
  Imagor.autoFormat app r
    (if bool_decide (Imagor.BaseParams app = "") then p
     else setPath (Apply p (Imagor.BaseParams app))
                  (GeneratePath (Apply p (Imagor.BaseParams app)))).

(** The key of the result cache for normalized params. *)
Definition resultKeyOf (app : Imagor.Imagor) (p : Params) : string :=
  match Imagor.ResultKey app with
  | Some generate => generate p
  | None => TrimPrefix (p_Path p) "meta/"
  end.

(** The context and the request [Do] works with: the caller's, under the
    request timeout when one is configured. *)
Definition requestCtx (app : Imagor.Imagor) (r : Request) : Context :=
  if 0 <? Imagor.RequestTimeout app
  then WithTimeout (rctx r) (Imagor.RequestTimeout app) else rctx r.

Definition requestOf (app : Imagor.Imagor) (r : Request) : Request :=
  if 0 <? Imagor.RequestTimeout app
  then WithContext r (requestCtx app r) else r.

(** The signature gate of [Do] turns the request down. *)
Definition gateFails (app : Imagor.Imagor) (p : Params) : bool :=
  negb (Imagor.Unsafe app && p_Unsafe p)
  && match Imagor.Signer app with
     | Some sign => negb (bool_decide (sign (p_Path p) = p_Hash p))
     | None => false
     end.

(** The [load] function [Do] gives to the processors. *)
Definition loadOf (app : Imagor.Imagor) (r : Request) : Imagor.LoadFunc :=
  fun image =>
    (ls <- Imagor.loadStorage app r image ;;
     let '(b, _, err) := ls in ret (b, err))%engine.

(** What acquiring the semaphore returns, nil when there is no semaphore. *)
Definition acquired (app : Imagor.Imagor) (ctx : Context) : option error :=
  match Imagor.sema app with
  | Some acquire => acquire ctx
  | None => None
  end.

(** The request goes all the way through [Do] on its own: it passes the
    signature gate, misses the result cache, gets the semaphore, holds
    neither of its two single-flight keys, finds no result to take from a
    call in flight for them, and its context, under the request timeout,
    stays live. *)
Definition leads (app : Imagor.Imagor) (r : Request) (p : Params) : Prop :=
  let p' := normalize app r p in
  let rk := resultKeyOf app p' in
  let ctx := requestCtx app r in
  gateFails app p = false
  /\ Imagor.loadResult app (requestOf app r) rk (p_Image p') (p_Meta p') = None
  /\ acquired app (WithValue ctx ("res:" +:+ rk)) = None
  /\ first_settled (default [] (Imagor.g app !! ("res:" +:+ rk))) = None
  /\ first_settled (default [] (Imagor.g app !! ("img:" +:+ p_Image p'))) = None
  /\ isAcquired (rctx r) ("res:" +:+ rk) = false
  /\ isAcquired (rctx r) ("img:" +:+ p_Image p') = false
  /\ ctx_err ctx = None.

(** The source load of a request that leads: [load] on the storages and
    loaders, under the context marked for the image key. *)
Definition sourceLoad (app : Imagor.Imagor) (r : Request) (p : Params)
    : Imagor.Loaded :=
  let p' := normalize app r p in
  Imagor.load app
    (WithContext (requestOf app r)
       (WithValue (requestCtx app r) ("img:" +:+ p_Image p')))
    (Imagor.Storages app) (Imagor.Loaders app) (p_Image p') false.

(** The context on which a call of [suppress] runs [fn] when it runs it: the
    caller's own when it carries the marker, and else the caller's with the
    marker added. *)
Definition fnCtx (ctx : Context) (key : string) : Context :=
  if isAcquired ctx key then ctx else WithValue ctx key.

(** A call of [suppress] runs [fn] itself: its context carries the marker, or
    nothing is in flight for the key, or its context is live and every call
    in flight for the key ends canceled. *)
Definition invoked (app : Imagor.Imagor) (ctx : Context) (key : string) : bool :=
  isAcquired ctx key
  || match default [] (Imagor.g app !! key), ctx_err ctx with
     | [], _ => true
     | pending, None => match first_settled pending with
                        | None => true
                        | Some _ => false
                        end
     | _, Some _ => false
     end.

(** The source fetch of a request: [loadStorage] on the request of [Do] and
    the image key of the normalized params. *)
Definition fetch (app : Imagor.Imagor) (r : Request) (p : Params)
    : M (option Blob * bool * option error) :=
  Imagor.loadStorage app (requestOf app r) (p_Image (normalize app r p)).

(** The request gets to the function literal of [Do] and through its first
    half: it passes the signature gate, misses the result cache, runs the
    function literal itself and gets the semaphore. *)
Definition fetches (app : Imagor.Imagor) (r : Request) (p : Params) : Prop :=
  let p' := normalize app r p in
  let rk := resultKeyOf app p' in
  let ctx := requestCtx app r in
  gateFails app p = false
  /\ Imagor.loadResult app (requestOf app r) rk (p_Image p') (p_Meta p') = None
  /\ invoked app ctx ("res:" +:+ rk) = true
  /\ acquired app (fnCtx ctx ("res:" +:+ rk)) = None.

(** The request reaches the processor chain, with the source blob [src] and
    the flag [saved] of its source fetch: it fetches, and the fetch returns
    a non-empty blob and a nil error. *)
Definition reaches (app : Imagor.Imagor) (r : Request) (p : Params)
    (src : option Blob) (saved : bool) : Prop :=
  fetches app r p
  /\ value (fetch app r p) = (src, saved, None)
  /\ isBlobEmpty src = false.

(** The context the chain of a request runs under, and its run on the source
    blob [src]. *)
Definition chainCtx (app : Imagor.Imagor) (r : Request) (p : Params) : Context :=
  processCtx app
    (fnCtx (requestCtx app r)
       ("res:" +:+ resultKeyOf app (normalize app r p))).

Definition chainRun (app : Imagor.Imagor) (r : Request) (p : Params)
    (src : option Blob) : M Result :=
  Imagor.process_loop (chainCtx app r p) (normalize app r p)
    (loadOf app (requestOf app r)) (Imagor.Processors app) src None.

(** An event is a write to one of the source storages. *)
Definition savesSource (app : Imagor.Imagor) (ev : Event) : Prop :=
  exists s ctx key blob,
    s ∈ Imagor.Storages app /\ ev = EvPut (Imagor.s_name s) ctx key blob.

(** The file the loop of the earlier [load] holds after the loaders
    [loaders], starting from [file]: the most recent non-empty one. *)
Fixpoint legacy_latest (loadReq : Request) (image : string)
    (loaders : list Legacy.Loader) (file : option Legacy.File)
    : option Legacy.File :=
  match loaders with
  | [] => file
  | l :: rest =>
      legacy_latest loadReq image rest
        (if negb (Legacy.IsFileEmpty (fst (Legacy.l_Load l loadReq image)))
         then fst (Legacy.l_Load l loadReq image) else file)
  end.

(** The storage an event of the earlier engine writes to. *)
Definition saved_to (ev : Legacy.Event) : string :=
  match ev with
  | Legacy.EvSave storage _ _ _ => storage
  end.

(** The request the earlier [Do] works with: the caller's, under the request
    timeout when one is configured. *)
Definition legacyRequestOf (app : Legacy.Imagor) (r : Request) : Request :=
  if 0 <? Legacy.RequestTimeout app
  then WithContext r (WithTimeout (rctx r) (Legacy.RequestTimeout app))
  else r.

End Vocabulary.

(** ** Sample collaborators and configurations *)

Module Sample.

(** A blob is empty when it is nil or has no byte to read; [checkBlob] hands
    its arguments back; errors that are not of the engine wrap to
    [ErrInternal], a deadline to [ErrTimeout]; a path is an image key, after
    an optional [unsafe/]. *)
Definition external : External := {|
  isBlobEmpty := fun blob =>
    match blob with
    | Some b => match blob_NewReader b with
                | Some (String _ _) => false
                | _ => true
                end
    | None => true
    end;
  checkBlob := fun res => res;
  NewEmptyBlob := mkBlob "" None None;
  WrapError := fun e =>
    match e with
    | EImagor e' => e'
    | DeadlineExceeded => ErrTimeout
    | _ => ErrInternal
    end;
  Parse := fun path =>
    let rest := TrimPrefix path "/" in
    if String.prefix "unsafe/" rest
    then mkParams false (TrimPrefix rest "unsafe/") "" true false
                  (TrimPrefix rest "unsafe/") []
    else mkParams false rest "" false false rest [];
  Apply := fun p _ => p;
  GeneratePath := p_Path
|}.

Definition errorsGo : ErrorsGo := {| ErrPassCode := 400 |}.

Definition legacy : Legacy.External := {|
  Legacy.IsFileEmpty := fun file =>
    match file with
    | Some (Legacy.mkFile (String _ _)) => false
    | _ => true
    end;
  Legacy.WrapError := fun e => e;
  Legacy.Sign := fun _ _ => "";
  Legacy.Parse := Parse (External := external);
  Legacy.DetectContentType := fun _ => "application/octet-stream"
|}.

(** A context with no deadline that stays live, under a clock on which no
    deadline passes; the same context canceled by its caller; and a live
    context under a clock on which every deadline shorter than a minute
    passes. *)
Definition background : Context := mkContext None None (fun _ => false) ∅.

Definition canceled : Context :=
  mkContext (Some Canceled) None (fun _ => false) ∅.

Definition slow : Context := mkContext None None (fun d => d <? 60) ∅.

Definition get (path : string) : Request := mkRequest "GET" path "" background.

Definition jpeg (data : string) : Blob := mkBlob "image/jpeg" (Some data) None.

(** A storage whose [Get] answers the same for every key, and which has
    neither stat nor meta. *)
Definition storage (name : string) (res : Result) : Imagor.Storage :=
  Imagor.mkStorage name (fun _ _ => res)
    (fun _ _ => (None, Some (EImagor ErrNotFound)))
    (fun _ _ => (None, Some (EImagor ErrNotFound))).

(** A storage that holds nothing but has a stat at instant [t]. *)
Definition dated (name : string) (res : Result) (t : Z) : Imagor.Storage :=
  Imagor.mkStorage name (fun _ _ => res)
    (fun _ _ => (Some (mkStat t), None))
    (fun _ _ => (None, Some (EImagor ErrNotFound))).

Definition loader (res : Result) : Imagor.Loader :=
  Imagor.mkLoader (fun _ _ => res).

(** The loader of the tests: one key, one payload, [ErrPass] otherwise. *)
Definition only (key data : string) : Imagor.Loader :=
  Imagor.mkLoader (fun _ k =>
    if bool_decide (k = key) then (Some (jpeg data), None)
    else (None, Some (EImagor ErrPass))).

(** An engine with no timeout and nothing in flight, everything else as
    [New] leaves it. *)
Definition configure (unsafe : bool) (signer : option (string -> string))
    (check : bool) (loaders : list Imagor.Loader)
    (storages resultStorages : list Imagor.Storage)
    (processors : list Imagor.Processor) : Imagor.Imagor :=
  {| Imagor.Unsafe := unsafe; Imagor.Signer := signer;
     Imagor.BasePathRedirect := "";
     Imagor.Loaders := loaders; Imagor.Storages := storages;
     Imagor.ResultStorages := resultStorages;
     Imagor.Processors := processors;
     Imagor.RequestTimeout := 0; Imagor.LoadTimeout := 0;
     Imagor.SaveTimeout := 0; Imagor.ProcessTimeout := 0;
     Imagor.CacheHeaderTTL := 604800; Imagor.CacheHeaderSWR := 86400;
     Imagor.AutoWebP := false; Imagor.AutoAVIF := false;
     Imagor.ModifiedTimeCheck := check;
     Imagor.DisableErrorBody := false;
     Imagor.DisableParamsEndpoint := false;
     Imagor.BaseParams := ""; Imagor.ResultKey := None;
     Imagor.g := ∅; Imagor.sema := None |}.

(** The unsafe engine of the tests. *)
Definition engine (loaders : list Imagor.Loader)
    (storages resultStorages : list Imagor.Storage)
    (processors : list Imagor.Processor) : Imagor.Imagor :=
  configure true None false loaders storages resultStorages processors.

(** The same engine with the modified-time check on. *)
Definition checking (storages resultStorages : list Imagor.Storage)
    : Imagor.Imagor :=
  configure true None true [] storages resultStorages [].

(** An engine that checks signatures, with a signer that signs every path
    alike. *)
Definition signed (loaders : list Imagor.Loader) : Imagor.Imagor :=
  configure false (Some (fun _ => "_-19cQt1szHeUV0WyWFntvTImDI=")) false
            loaders [] [] [].

(** An engine of the earlier revision, with its loaders. *)
Definition earlier (loaders : list Legacy.Loader) : Legacy.Imagor :=
  {| Legacy.Version := "dev"; Legacy.Unsafe := true; Legacy.Secret := "";
     Legacy.Loaders := loaders; Legacy.Storages := [];
     Legacy.Processors := [];
     Legacy.RequestTimeout := 0; Legacy.LoadTimeout := 0;
     Legacy.SaveTimeout := 0; Legacy.CacheHeaderTTL := 86400;
     Legacy.g := ∅ |}.

Definition failing (e : error) : Legacy.Loader :=
  Legacy.mkLoader (fun _ _ => (None, Some e)) None.

(** A processor that fails with a given error. *)
Definition broken (e : error) : Imagor.Processor :=
  Imagor.mkProcessor (fun _ _ _ => Imagor.Return (None, Some e)).

(** Storages that hand back a blob together with an error, and handlers that
    answer with no blob and no error. *)
Definition stale : Imagor.Storage :=
  storage "a" (Some (jpeg "stale"), Some (Plain "upstream down")).

Definition partial : Imagor.Storage :=
  storage "b" (Some (jpeg "partial"), Some (Plain "short read")).

Definition silent : Imagor.Storage := storage "c" (None, None).

Definition silentLoader : Imagor.Loader := loader (None, None).

(** A processor that passes an alternative blob on, and one that returns the
    blob it is given. *)
Definition passing : Imagor.Processor :=
  Imagor.mkProcessor (fun _ _ _ =>
    Imagor.Return (Some (jpeg "alternative"), Some (EImagor ErrPass))).

Definition echo : Imagor.Processor :=
  Imagor.mkProcessor (fun _ blob _ => Imagor.Return (blob, None)).

(** An engine with no collaborator at all. *)
Definition bare : Imagor.Imagor := engine [] [] [] [].

(** A load function that finds nothing. *)
Definition noLoad : Imagor.LoadFunc :=
  fun _ => ret (None, Some (EImagor ErrNotFound)).

(** The configurations of the checks below. [cached]: a loader for [foo.jpg]
    and one result storage, no processor. [backed]: the same loader and one
    source storage that holds nothing. [gone]: a loader whose upstream call
    was canceled. [declined]: a storage that fails and a loader that passes.
    [thumbs], [sources]: a result storage and a source storage with stats. *)
Definition results : Imagor.Storage :=
  storage "results" (None, Some (EImagor ErrNotFound)).

Definition store : Imagor.Storage :=
  storage "store" (None, Some (EImagor ErrNotFound)).

Definition cached : Imagor.Imagor := engine [only "foo.jpg" "bar"] [] [results] [].

Definition backed : Imagor.Imagor := engine [only "foo.jpg" "bar"] [store] [] [].

Definition gone : Imagor.Imagor := engine [loader (None, Some Canceled)] [] [] [].

Definition down : Imagor.Storage := storage "down" (None, Some (EImagor ErrInternal)).

Definition pass : Imagor.Loader := loader (None, Some (EImagor ErrPass)).

Definition declined : Imagor.Imagor := engine [pass] [down] [] [].

Definition thumbs : Imagor.Storage :=
  dated "thumbs" (Some (jpeg "thumb"), None) 200.

Definition sources : Imagor.Storage :=
  dated "sources" (None, Some (EImagor ErrNotFound)) 100.

(** A function for [suppress] that tells whether its context holds the key
    [img:a]. *)
Definition probe : Context -> M (Result * bool) :=
  fun ctx => ret ((None, None), isAcquired ctx "img:a").

(** A request whose caller went away before it was served. *)
Definition abandoned : Request := mkRequest "POST" "/unsafe/foo.jpg" "" canceled.

(** A storage that knows the metadata of every key, and one whose [Meta]
    fails. *)
Definition portrait : Meta := mkMeta "jpeg" "image/jpeg" 300 400 1.

Definition described : Imagor.Storage :=
  Imagor.mkStorage "described" (fun _ _ => (None, Some (EImagor ErrNotFound)))
    (fun _ _ => (None, Some (EImagor ErrNotFound)))
    (fun _ _ => (Some portrait, None)).

Definition unreachable : Imagor.Storage :=
  Imagor.mkStorage "unreachable" (fun _ _ => (None, Some (Plain "timeout")))
    (fun _ _ => (None, Some (Plain "timeout")))
    (fun _ _ => (None, Some (Plain "timeout"))).

(** An engine with calls in flight for one key, and an engine that writes
    no error body; everything else as in [app]. *)
Definition inflight (app : Imagor.Imagor) (key : string)
    (pending : list Result) : Imagor.Imagor :=
  {| Imagor.Unsafe := Imagor.Unsafe app; Imagor.Signer := Imagor.Signer app;
     Imagor.BasePathRedirect := Imagor.BasePathRedirect app;
     Imagor.Loaders := Imagor.Loaders app;
     Imagor.Storages := Imagor.Storages app;
     Imagor.ResultStorages := Imagor.ResultStorages app;
     Imagor.Processors := Imagor.Processors app;
     Imagor.RequestTimeout := Imagor.RequestTimeout app;
     Imagor.LoadTimeout := Imagor.LoadTimeout app;
     Imagor.SaveTimeout := Imagor.SaveTimeout app;
     Imagor.ProcessTimeout := Imagor.ProcessTimeout app;
     Imagor.CacheHeaderTTL := Imagor.CacheHeaderTTL app;
     Imagor.CacheHeaderSWR := Imagor.CacheHeaderSWR app;
     Imagor.AutoWebP := Imagor.AutoWebP app;
     Imagor.AutoAVIF := Imagor.AutoAVIF app;
     Imagor.ModifiedTimeCheck := Imagor.ModifiedTimeCheck app;
     Imagor.DisableErrorBody := Imagor.DisableErrorBody app;
     Imagor.DisableParamsEndpoint := Imagor.DisableParamsEndpoint app;
     Imagor.BaseParams := Imagor.BaseParams app;
     Imagor.ResultKey := Imagor.ResultKey app;
     Imagor.g := <[key := pending]> (Imagor.g app);
     Imagor.sema := Imagor.sema app |}.

Definition muted (app : Imagor.Imagor) : Imagor.Imagor :=
  {| Imagor.Unsafe := Imagor.Unsafe app; Imagor.Signer := Imagor.Signer app;
     Imagor.BasePathRedirect := Imagor.BasePathRedirect app;
     Imagor.Loaders := Imagor.Loaders app;
     Imagor.Storages := Imagor.Storages app;
     Imagor.ResultStorages := Imagor.ResultStorages app;
     Imagor.Processors := Imagor.Processors app;
     Imagor.RequestTimeout := Imagor.RequestTimeout app;
     Imagor.LoadTimeout := Imagor.LoadTimeout app;
     Imagor.SaveTimeout := Imagor.SaveTimeout app;
     Imagor.ProcessTimeout := Imagor.ProcessTimeout app;
     Imagor.CacheHeaderTTL := Imagor.CacheHeaderTTL app;
     Imagor.CacheHeaderSWR := Imagor.CacheHeaderSWR app;
     Imagor.AutoWebP := Imagor.AutoWebP app;
     Imagor.AutoAVIF := Imagor.AutoAVIF app;
     Imagor.ModifiedTimeCheck := Imagor.ModifiedTimeCheck app;
     Imagor.DisableErrorBody := true;
     Imagor.DisableParamsEndpoint := Imagor.DisableParamsEndpoint app;
     Imagor.BaseParams := Imagor.BaseParams app;
     Imagor.ResultKey := Imagor.ResultKey app;
     Imagor.g := Imagor.g app;
     Imagor.sema := Imagor.sema app |}.

(** A loader with one payload and an engine with no storage that serves
    it. *)
Definition direct : Imagor.Imagor := engine [only "foo.jpg" "bar"] [] [] [].

(** The earlier revision with a secret: every path signs to the same hash. *)
Definition strict : Legacy.External := {|
  Legacy.IsFileEmpty := Legacy.IsFileEmpty (External := legacy);
  Legacy.WrapError := fun e => e;
  Legacy.Sign := fun _ _ => "_-19cQt1szHeUV0WyWFntvTImDI=";
  Legacy.Parse := Parse (External := external);
  Legacy.DetectContentType := fun _ => "application/octet-stream"
|}.

(** The store of the earlier tests: a loader that is also the storage
    [store], here holding [boop]; and an engine that has it after a loader
    that passes, with a second storage and a save timeout. *)
Definition kept : Legacy.Loader :=
  Legacy.mkLoader (fun _ _ => (Some (Legacy.mkFile "boop"), None)) (Some "store").

Definition archive : Legacy.Imagor :=
  {| Legacy.Version := "dev"; Legacy.Unsafe := true; Legacy.Secret := "";
     Legacy.Loaders := [failing (EImagor ErrPass); kept];
     Legacy.Storages := [Legacy.mkStorage "store"; Legacy.mkStorage "backup"];
     Legacy.Processors := [];
     Legacy.RequestTimeout := 0; Legacy.LoadTimeout := 0;
     Legacy.SaveTimeout := 20; Legacy.CacheHeaderTTL := 86400;
     Legacy.g := ∅ |}.


(** A processor that declines, and one that asks for a mask before it
    returns the blob it was given, with the error of that load. *)
Definition declining : Imagor.Processor :=
  Imagor.mkProcessor (fun _ _ _ => Imagor.Return (None, Some (EImagor ErrPass))).

Definition masking : Imagor.Processor :=
  Imagor.mkProcessor (fun _ blob _ =>
    Imagor.Load "mask.jpg" (fun res => Imagor.Return (blob, snd res))).

(** An engine whose processor loads a second image, with a source storage
    that holds nothing and a result storage; the same engine with a
    processor that declines, and with one that runs into the deadline. *)
Definition layered : Imagor.Imagor :=
  engine [only "foo.jpg" "bar"; only "mask.jpg" "mask"] [store] [results] [masking].

Definition refused : Imagor.Imagor :=
  engine [only "foo.jpg" "bar"] [store] [results] [declining].

Definition late : Imagor.Imagor :=
  engine [only "foo.jpg" "bar"] [store] [results] [broken DeadlineExceeded].

(** An engine with a request timeout; everything else as in [app]. *)
Definition within (app : Imagor.Imagor) (timeout : Z) : Imagor.Imagor :=
  {| Imagor.Unsafe := Imagor.Unsafe app; Imagor.Signer := Imagor.Signer app;
     Imagor.BasePathRedirect := Imagor.BasePathRedirect app;
     Imagor.Loaders := Imagor.Loaders app;
     Imagor.Storages := Imagor.Storages app;
     Imagor.ResultStorages := Imagor.ResultStorages app;
     Imagor.Processors := Imagor.Processors app;
     Imagor.RequestTimeout := timeout;
     Imagor.LoadTimeout := Imagor.LoadTimeout app;
     Imagor.SaveTimeout := Imagor.SaveTimeout app;
     Imagor.ProcessTimeout := Imagor.ProcessTimeout app;
     Imagor.CacheHeaderTTL := Imagor.CacheHeaderTTL app;
     Imagor.CacheHeaderSWR := Imagor.CacheHeaderSWR app;
     Imagor.AutoWebP := Imagor.AutoWebP app;
     Imagor.AutoAVIF := Imagor.AutoAVIF app;
     Imagor.ModifiedTimeCheck := Imagor.ModifiedTimeCheck app;
     Imagor.DisableErrorBody := Imagor.DisableErrorBody app;
     Imagor.DisableParamsEndpoint := Imagor.DisableParamsEndpoint app;
     Imagor.BaseParams := Imagor.BaseParams app;
     Imagor.ResultKey := Imagor.ResultKey app;
     Imagor.g := Imagor.g app;
     Imagor.sema := Imagor.sema app |}.

(** The request for [foo.jpg] of a caller who has gone away, and of a caller
    on the slow clock. *)
Definition left : Request := mkRequest "GET" "/unsafe/foo.jpg" "" canceled.

Definition waiting : Request := mkRequest "GET" "/unsafe/foo.jpg" "" slow.

End Sample.

(** ** Properties *)

Section Properties.
Context `{ErrorsGo} `{External} `{Legacy.External}.

(** *** Computations that record their calls *)

Lemma bind_ret_r {E A : Type} (m : Rec E A) : bind m ret = m.
Proof. destruct m as [a t]. unfold bind, ret. by rewrite app_nil_r. Qed.

Lemma value_bind {E A B : Type} (m : Rec E A) (k : A -> Rec E B) :
  value (bind m k) = value (k (value m)).
Proof. destruct m as [a t]. unfold bind, value; simpl. by destruct (k a). Qed.

Lemma trace_bind {E A B : Type} (m : Rec E A) (k : A -> Rec E B) :
  trace (bind m k) = trace m ++ trace (k (value m)).
Proof. destruct m as [a t]. unfold bind, value, trace; simpl. by destruct (k a). Qed.

Lemma trace_bind_ret {E A B : Type} (m : Rec E A) (f : A -> B) :
  trace (bind m (fun a => ret (f a))) = trace m.
Proof. destruct m as [a t]. unfold bind, ret, trace. simpl. apply app_nil_r. Qed.

(** *** The loops of load *)

Lemma load_storages_scan r key storages blob err :
  Imagor.load_storages r key storages blob err
  = scan (map (fun s => (Some s, checkBlob (Imagor.s_Get s r key))) storages) blob err.
Proof.
  revert blob err. induction storages as [|s rest IH]; intros blob err; simpl; [done|].
  unfold h_blob, h_err; simpl.
  destruct (checkBlob (Imagor.s_Get s r key)) as [b e]; simpl.
  destruct (isBlobEmpty b); simpl; [apply IH|].
  destruct e; [apply IH|done].
Qed.

Lemma load_loaders_scan r key loaders blob err :
  Imagor.load_loaders r key loaders blob err
  = scan (map (fun l => (None, checkBlob (Imagor.l_Get l r key))) loaders) blob err.
Proof.
  revert blob err. induction loaders as [|l rest IH]; intros blob err; simpl; [done|].
  unfold h_blob, h_err; simpl.
  destruct (checkBlob (Imagor.l_Get l r key)) as [b e]; simpl.
  destruct (isBlobEmpty b); simpl; [apply IH|].
  destruct e; [apply IH|done].
Qed.

Lemma scan_app hs1 hs2 blob err :
  scan (hs1 ++ hs2) blob err
  = match scan hs1 blob err with
    | inl res => inl res
    | inr (blob', err') => scan hs2 blob' err'
    end.
Proof.
  revert blob err. induction hs1 as [|h rest IH]; intros blob err; simpl; [done|].
  destruct (isBlobEmpty (h_blob h)); simpl; [apply IH|].
  destruct (h_err h); [apply IH|done].
Qed.

(** [load] in bytes mode is the scan of its handlers and the final policy. *)
Lemma load_bytes app r storages loaders key :
  key ≠ "" ->
  Imagor.load app r storages loaders key false
  = match scan (handlers app r storages loaders key) None None with
    | inl res => res
    | inr (blob, err) => Imagor.load_finish false blob err
    end.
Proof.
  intros Hkey. unfold Imagor.load, handlers, loadRequest.
  destruct (decide (key = "")) as [|_]; [done|].
  rewrite scan_app, load_storages_scan.
  destruct (0 <? Imagor.LoadTimeout app);
    (match goal with |- context [scan ?l None None] => destruct (scan l None None) as [res|[blob err]] end;
     [done|]; rewrite load_loaders_scan; done).
Qed.

(** No clean handler: the scan runs to the end of the list. *)
Lemma scan_none_clean hs blob err :
  Forall (fun h => clean h = false) hs ->
  scan hs blob err = inr (latest_nonempty hs blob, latest_err hs err).
Proof.
  intros Hall. revert blob err.
  induction Hall as [|h rest Hh _ IH]; intros blob err; simpl; [done|].
  unfold clean in Hh.
  destruct (isBlobEmpty (h_blob h)); simpl in *; [apply IH|].
  destruct (h_err h); simpl in *; [apply IH|done].
Qed.

(** The first clean handler ends the scan. *)
Lemma scan_first_clean pre h post blob err :
  Forall (fun h' => clean h' = false) pre ->
  clean h = true ->
  scan (pre ++ h :: post) blob err = inl (h_blob h, fst h, None).
Proof.
  intros Hpre Hh. rewrite scan_app, (scan_none_clean pre) by done. simpl.
  unfold clean in Hh. apply andb_true_iff in Hh as [Hne Herr].
  rewrite Hne. apply bool_decide_eq_true in Herr. by rewrite Herr.
Qed.

(** Among handlers of which one is clean, there is a first clean one. *)
Lemma first_clean_split hs :
  Exists (fun h => clean h = true) hs ->
  exists pre h post,
    hs = pre ++ h :: post /\ Forall (fun h' => clean h' = false) pre /\ clean h = true.
Proof.
  induction hs as [|h rest IH]; intros Hex; [by apply Exists_nil in Hex|].
  destruct (clean h) eqn:Hh.
  - exists [], h, rest. by repeat split.
  - apply Exists_cons in Hex as [Hex|Hex]; [congruence|].
    destruct (IH Hex) as (pre & h' & post & -> & Hpre & Hh').
    exists (h :: pre), h', post. repeat split; [|done]. by constructor.
Qed.

Lemma not_clean_forall hs :
  ~ Exists (fun h => clean h = true) hs -> Forall (fun h => clean h = false) hs.
Proof.
  intros Hn. apply Forall_forall. intros h Hin.
  destruct (clean h) eqn:Hh; [|done].
  exfalso. apply Hn, Exists_exists. eauto.
Qed.

Lemma consulted_none_clean hs :
  Forall (fun h => clean h = false) hs -> consulted hs = hs.
Proof.
  induction 1 as [|h rest Hh _ IH]; simpl; [done|]. by rewrite Hh, IH.
Qed.

Lemma consulted_first_clean pre h post :
  Forall (fun h' => clean h' = false) pre -> clean h = true ->
  consulted (pre ++ h :: post) = pre ++ [h].
Proof.
  induction 1 as [|h0 rest Hh0 _ IH]; intros Hh; simpl.
  - by rewrite Hh.
  - by rewrite Hh0, IH.
Qed.

Lemma latest_err_snoc hs h err : latest_err (hs ++ [h]) err = h_err h.
Proof. revert err. induction hs as [|h0 rest IH]; intros err; simpl; [done|apply IH]. Qed.

Lemma clean_inv h :
  clean h = true -> isBlobEmpty (h_blob h) = false /\ h_err h = None.
Proof.
  unfold clean. intros [Hb He]%andb_true_iff.
  apply negb_true_iff in Hb. by apply bool_decide_eq_true in He.
Qed.

(** What [load] returns in bytes mode, by cases on its handlers. *)
Lemma load_bytes_cases app r storages loaders key :
  key ≠ "" ->
  let hs := handlers app r storages loaders key in
  (exists pre h post,
      hs = pre ++ h :: post /\ Forall (fun h' => clean h' = false) pre /\
      clean h = true /\
      Imagor.load app r storages loaders key false = (h_blob h, fst h, None))
  \/ (Forall (fun h => clean h = false) hs /\
      Imagor.load app r storages loaders key false
      = Imagor.load_finish false (latest_nonempty hs None) (latest_err hs None)).
Proof.
  intros Hkey hs. rewrite load_bytes by done. fold hs.
  destruct (decide (Exists (fun h => clean h = true) hs)) as [Hex|Hn].
  - left. destruct (first_clean_split hs Hex) as (pre & h & post & Heq & Hpre & Hh).
    exists pre, h, post. repeat split; try done.
    by rewrite Heq, (scan_first_clean pre h post).
  - right. apply not_clean_forall in Hn. split; [done|].
    by rewrite scan_none_clean.
Qed.

(** *** The load pipeline *)

(** C1, as amended. In bytes mode, for every ordered list of storages then
    loaders: for the empty key [load] consults no handler and returns
    [ErrNotFound] with no blob and no origin; for every non-empty key it
    returns at once on the first handler that yields a non-empty blob and a
    nil error, with that blob, a nil error and the storage as origin (no
    origin for a loader), whatever the handlers after it would return; when
    no handler is clean it returns the most recent non-empty blob it saw
    (each non-empty blob replaces the one retained before) with no origin;
    and it returns an error only when no handler is clean. *)
Theorem load_bytes_tentative app r storages loaders key :
  let hs := handlers app r storages loaders key in
  (key = "" ->
   Imagor.load app r storages loaders key false
   = (None, None, Some (EImagor ErrNotFound)))
  /\ (key ≠ "" ->
      (forall pre h post,
          hs = pre ++ h :: post ->
          Forall (fun h' => clean h' = false) pre ->
          clean h = true ->
          Imagor.load app r storages loaders key false = (h_blob h, fst h, None))
      /\ (Forall (fun h => clean h = false) hs ->
          fst (Imagor.load app r storages loaders key false)
          = (latest_nonempty hs None, None))
      /\ (forall e,
          snd (Imagor.load app r storages loaders key false) = Some e ->
          Forall (fun h => clean h = false) hs)).
Proof.
  intros hs. split; [by intros ->|].
  intros Hkey. split; [|split].
  - intros pre h post Heq Hpre Hh.
    rewrite load_bytes by done. fold hs.
    by rewrite Heq, (scan_first_clean pre h post).
  - intros Hall. rewrite load_bytes by done. fold hs.
    rewrite scan_none_clean by done. unfold Imagor.load_finish.
    destruct (latest_err hs None); [done|].
    by destruct (isBlobEmpty _ && negb false).
  - intros e He.
    destruct (load_bytes_cases app r storages loaders key Hkey)
      as [(pre & h & post & _ & _ & _ & Hl)|[Hall _]]; [|done].
    by rewrite Hl in He.
Qed.

(** C10, as amended. In bytes mode, for a non-empty key, the error [load]
    returns is the error of the last handler it consulted (the first clean
    handler, or else the last of the list), except that [ErrNotFound] stands
    in for a nil error next to an empty blob. Errors do not accumulate: when
    no handler is clean and the last one returns a nil error, [load] returns
    the most recent non-empty blob, if an earlier failing handler gave one,
    with a nil error and no origin. *)
Theorem load_err_last_consulted app r storages loaders key :
  key ≠ "" ->
  let hs := handlers app r storages loaders key in
  let res := Imagor.load app r storages loaders key false in
  snd res
  = (match latest_err (consulted hs) None with
     | None => if isBlobEmpty (fst (fst res))
               then Some (EImagor ErrNotFound) else None
     | Some e => Some e
     end)
  /\ (Forall (fun h => clean h = false) hs ->
      latest_err hs None = None ->
      isBlobEmpty (latest_nonempty hs None) = false ->
      res = (latest_nonempty hs None, None, None)).
Proof.
  intros Hkey hs res. subst res hs. split.
  - destruct (load_bytes_cases app r storages loaders key Hkey)
      as [(pre & h & post & Heq & Hpre & Hh & ->)|[Hall ->]].
    + rewrite Heq, consulted_first_clean, latest_err_snoc by done.
      apply clean_inv in Hh as [Hb ->]. simpl. by rewrite Hb.
    + rewrite consulted_none_clean by done. unfold Imagor.load_finish.
      destruct (latest_err _ None); [done|].
      rewrite andb_true_r.
      destruct (isBlobEmpty (latest_nonempty _ None)) eqn:Hb; simpl; by rewrite Hb.
  - intros Hall Herr Hblob.
    destruct (load_bytes_cases app r storages loaders key Hkey)
      as [(pre & h & post & Heq & Hpre & Hh & _)|[_ ->]].
    + exfalso. rewrite Heq in Hall. apply Forall_app in Hall as [_ Hall].
      apply Forall_cons in Hall as [Hall _]. congruence.
    + unfold Imagor.load_finish. by rewrite Herr, Hblob.
Qed.

(** *** The processor chain *)

(** One turn of the loop, on what the processor returns. *)
Lemma process_loop_cons ctx p load q rest blob err :
  value (Imagor.process_loop ctx p load (q :: rest) blob err)
  = let '(b, e) := checkBlob (value (Imagor.Process q ctx blob p load)) in
    match e with
    | None => (b, None)
    | Some e' =>
        if decide (e' = EImagor ErrPass) then
          value (Imagor.process_loop ctx p load rest
                   (if negb (isBlobEmpty b) then b else blob) err)
        else if errors_Is (Some e') DeadlineExceeded then (blob, Some e')
        else value (Imagor.process_loop ctx p load rest blob (Some e'))
    end.
Proof.
  simpl. rewrite value_bind.
  destruct (checkBlob (value (Imagor.Process q ctx blob p load))) as [b [e|]]; [|done].
  destruct (decide (e = EImagor ErrPass)); [done|].
  by destruct (errors_Is_chain e DeadlineExceeded).
Qed.

Lemma process_loop_sound ctx p load processors blob err :
  chain ctx p load processors blob err
        (value (Imagor.process_loop ctx p load processors blob err)).
Proof.
  revert blob err. induction processors as [|q rest IH]; intros blob err.
  - constructor.
  - rewrite process_loop_cons.
    destruct (checkBlob (value (Imagor.Process q ctx blob p load))) as [b [e|]] eqn:Hq.
    + destruct (decide (e = EImagor ErrPass)) as [->|Hne].
      * destruct (isBlobEmpty b) eqn:Hb; simpl.
        -- by eapply chain_pass_empty.
        -- by eapply chain_pass_blob.
      * simpl. destruct (errors_Is_chain e DeadlineExceeded) eqn:Hd.
        -- by eapply chain_deadline.
        -- by eapply chain_error.
    + by eapply chain_success.
Qed.

Lemma chain_functional ctx p load processors blob err res :
  chain ctx p load processors blob err res ->
  res = value (Imagor.process_loop ctx p load processors blob err).
Proof.
  induction 1 as [blob err|q rest blob err b Hq|q rest blob err b res Hq Hb _ IH
                 |q rest blob err b res Hq Hb _ IH|q rest blob err b e res Hq Hne Hd _ IH
                 |q rest blob err b e Hq Hd];
    [done|rewrite process_loop_cons, Hq..]; try done.
  - rewrite decide_True by done. by rewrite Hb.
  - rewrite decide_True by done. by rewrite Hb.
  - rewrite decide_False by done. simpl in Hd |- *. by rewrite Hd.
  - destruct (decide (e = EImagor ErrPass)) as [->|_]; [done|].
    simpl in Hd |- *. by rewrite Hd.
Qed.

(** C2. For every source blob and every ordered list of processors, what the
    loop over the processors ends with is what the protocol of the chain
    gives, and nothing else: processors are applied in order; a nil error
    makes the returned blob the final result and stops the chain; [ErrPass]
    with a non-empty blob makes that blob the current one and the chain goes
    on; [ErrPass] with an empty blob keeps the current blob and the chain goes
    on; any other error is recorded and the chain goes on, unless the error is
    deadline-exceeded, which stops the chain at once with that error in place
    of any recorded before. *)
Theorem process_loop_chain ctx p load processors blob err res :
  chain ctx p load processors blob err res
  <-> res = value (Imagor.process_loop ctx p load processors blob err).
Proof.
  split; [apply chain_functional|intros ->; apply process_loop_sound].
Qed.

(** *** The single-flight wrapper *)

(** C5. For every context, key and function [fn]: the context that
    [suppress] passes to [fn] when this call leads carries the marker for the
    key; a call whose context already carries the marker invokes [fn]
    directly on that context, whatever the group holds for the key; a call
    whose context does not carry it goes through the group: with nothing in
    flight for the key it leads and runs [fn] on the marked context, and with
    a call in flight it does not run [fn] and takes that call's result. *)
Theorem suppress_marker {V : Type} (app : Imagor.Imagor) (v0 : V)
    (ctx : Context) (key : string) (fn : Context -> M (Result * V)) :
  isAcquired (WithValue ctx key) key = true
  /\ (isAcquired ctx key = true -> Imagor.suppress app v0 ctx key fn = fn ctx)
  /\ (isAcquired ctx key = false -> ctx_err ctx = None ->
      default [] (Imagor.g app !! key) = [] ->
      Imagor.suppress app v0 ctx key fn = fn (WithValue ctx key))
  /\ (isAcquired ctx key = false -> ctx_err ctx = None ->
      forall res later,
        Imagor.g app !! key = Some (res :: later) ->
        errors_Is (snd res) Canceled = false ->
        Imagor.suppress app v0 ctx key fn = ret (res, v0)).
Proof.
  repeat split.
  - unfold isAcquired, WithValue; simpl. apply bool_decide_eq_true. set_solver.
  - intros Hm. unfold Imagor.suppress. by rewrite Hm.
  - intros Hm Hlive Hg. unfold Imagor.suppress. rewrite Hm, Hg. simpl.
    rewrite Hlive. apply bind_ret_r.
  - intros Hm Hlive res later Hg Hres. unfold Imagor.suppress.
    rewrite Hm, Hg. simpl. by rewrite Hlive, Hres.
Qed.

(** *** Save-back, result-cache write, delete *)

Lemma puts_nil ctx storages key blob :
  puts ctx storages key blob = [] <-> storages = [].
Proof. unfold puts. by destruct storages. Qed.

(** What the function literal of [loadStorage] does. *)
Lemma loadStorage_fn_cases app r key ctx :
  let loaded := Imagor.load app (WithContext r ctx) (Imagor.Storages app)
                  (Imagor.Loaders app) key false in
  let blob := fst (fst loaded) in
  (snd loaded = None /\ isBlobEmpty blob = false /\ snd (fst loaded) = None
   /\ Imagor.Storages app ≠ []
   /\ Imagor.loadStorage_fn app r key ctx
      = (((blob, snd loaded), true),
         puts (saveCtx app ctx) (Imagor.Storages app) key blob))
  \/ (~ (snd loaded = None /\ isBlobEmpty blob = false /\ snd (fst loaded) = None
         /\ Imagor.Storages app ≠ [])
      /\ Imagor.loadStorage_fn app r key ctx = (((blob, snd loaded), false), [])).
Proof.
  intros loaded blob. subst blob loaded. unfold Imagor.loadStorage_fn.
  destruct (Imagor.load _ _ _ _ _ _) as [[blob origin] err]; simpl.
  destruct err as [e|]; [right; split; [intros (? & _); done|done]|].
  destruct origin as [o|]; [right; split; [intros (_ & _ & ? & _); done|done]|].
  destruct (Imagor.Storages app) as [|s ss] eqn:Hs;
    [right; split; [intros (_ & _ & _ & ?); done|done]|].
  destruct (isBlobEmpty blob) eqn:Hb; simpl.
  - right; split; [intros (_ & ? & _); done|done].
  - left. repeat split; try done. by rewrite app_nil_r.
Qed.

(** What the end of the function literal of [Do] does. *)
Lemma Do_process_run app p resultKey load ctx blob isSave :
  let pctx := processCtx app ctx in
  let run := Imagor.process_loop pctx p load (Imagor.Processors app) blob None in
  let out := value run in
  Imagor.Do_process app p resultKey load ctx blob isSave
  = ((out, tt),
     trace run
     ++ (match snd out with
         | None => puts (saveCtx app pctx) (Imagor.ResultStorages app) resultKey (fst out)
         | Some _ => []
         end)
     ++ (match snd out with
         | Some _ => if isSave
                     then deletes pctx (Imagor.Storages app) (p_Image p) else []
         | None => []
         end)).
Proof.
  intros pctx run out. subst out run pctx. unfold Imagor.Do_process, processCtx.
  destruct (Imagor.process_loop _ _ _ _ _ _) as [[b [e|]] t]; simpl.
  - destruct isSave; simpl; by rewrite ?app_nil_r.
  - destruct (Imagor.ResultStorages app); simpl; by rewrite ?app_nil_r.
Qed.

Lemma process_loop_declined ctx p load processors blob err :
  Forall (declines ctx p load blob) processors ->
  value (Imagor.process_loop ctx p load processors blob err) = (blob, err).
Proof.
  induction 1 as [|q rest (b & Hq & Hb) _ IH]; [done|].
  rewrite process_loop_cons, Hq. rewrite decide_True by done. by rewrite Hb.
Qed.

(** *** The result-cache probe *)

Lemma stat_ok_Some res stat : stat_ok res = Some stat -> res = (Some stat, None).
Proof. destruct res as [[?|] [?|]]; simpl; congruence. Qed.

Lemma storageStat_loop_first ctx key storages last :
  stat_ok last = None ->
  match stat_ok (Imagor.storageStat_loop ctx key storages last) with
  | Some stat => first_stat ctx key storages stat
  | None => Forall (fun s => stat_ok (Imagor.s_Stat s ctx key) = None) storages
  end.
Proof.
  revert last. induction storages as [|s rest IH]; intros last Hlast; simpl.
  - by rewrite Hlast.
  - destruct (stat_ok (Imagor.s_Stat s ctx key)) as [stat|] eqn:Hs.
    + rewrite (stat_ok_Some _ _ Hs). simpl. exists [], s, rest.
      split; [done|]. split; [done|]. by rewrite (stat_ok_Some _ _ Hs).
    + specialize (IH (Imagor.s_Stat s ctx key) Hs).
      assert (match Imagor.s_Stat s ctx key with
              | (Some stat, None) => (Some stat, None)
              | other => Imagor.storageStat_loop ctx key rest other
              end = Imagor.storageStat_loop ctx key rest (Imagor.s_Stat s ctx key)) as ->.
      { destruct (Imagor.s_Stat s ctx key) as [[?|] [?|]]; simpl in Hs; congruence. }
      destruct (stat_ok (Imagor.storageStat_loop ctx key rest _)) as [stat|].
      * destruct IH as (pre & s' & post & -> & Hpre & Hs').
        exists (s :: pre), s', post. repeat split; [|done]. by constructor.
      * by constructor.
Qed.

Lemma first_stat_unique ctx key storages stat1 stat2 :
  first_stat ctx key storages stat1 -> first_stat ctx key storages stat2 ->
  stat1 = stat2.
Proof.
  intros (pre1 & s1 & post1 & Heq1 & Hpre1 & Hs1).
  revert storages Heq1.
  induction Hpre1 as [|s pre Hs _ IH]; intros storages Heq1
    (pre2 & s2 & post2 & Heq2 & Hpre2 & Hs2); subst storages.
  - destruct pre2 as [|s' pre2]; simpl in Heq2; injection Heq2 as <- ?.
    + congruence.
    + apply Forall_cons in Hpre2 as [Hs' _]. congruence.
  - destruct pre2 as [|s' pre2]; simpl in Heq2; injection Heq2 as <- Heq2.
    + congruence.
    + apply Forall_cons in Hpre2 as [_ Hpre2].
      apply (IH _ eq_refl). exists pre2, s2, post2. by repeat split.
Qed.

Lemma first_stat_none ctx key storages stat :
  Forall (fun s => stat_ok (Imagor.s_Stat s ctx key) = None) storages ->
  ~ first_stat ctx key storages stat.
Proof.
  intros Hall (pre & s & post & -> & _ & Hs).
  apply Forall_app in Hall as [_ Hall].
  apply Forall_cons in Hall as [Hs' _]. congruence.
Qed.

(** C7. For every hit of the result cache (a load of the result key with a
    nil error and a non-empty blob, or any blob in meta mode) found with the
    modified-time check enabled and an origin storage: the probe returns the
    blob if the origin has a stat for the result key, some source storage has
    a stat for the image key, and the time of the result is not before the
    time reported by the first source storage whose stat succeeds; in every
    other case the hit is ignored and the probe returns no blob. *)
Theorem loadResult_fresh app r resultKey imageKey metaMode blob origin :
  Imagor.load app r (Imagor.ResultStorages app) [] resultKey metaMode
  = (blob, Some origin, None) ->
  negb (isBlobEmpty blob) || metaMode = true ->
  Imagor.ModifiedTimeCheck app = true ->
  let fresh :=
    exists resStat sourceStat,
      stat_ok (Imagor.s_Stat origin (rctx r) resultKey) = Some resStat
      /\ first_stat (rctx r) imageKey (Imagor.Storages app) sourceStat
      /\ ModifiedTime sourceStat <= ModifiedTime resStat in
  (fresh /\ Imagor.loadResult app r resultKey imageKey metaMode = blob)
  \/ (~ fresh /\ Imagor.loadResult app r resultKey imageKey metaMode = None).
Proof.
  intros Hload Hhit Hcheck fresh. subst fresh.
  unfold Imagor.loadResult. rewrite Hload, Hhit, Hcheck.
  destruct (stat_ok (Imagor.s_Stat origin (rctx r) resultKey)) as [resStat|] eqn:Hres.
  - rewrite (stat_ok_Some _ _ Hres).
    pose proof (storageStat_loop_first (rctx r) imageKey (Imagor.Storages app)
                  (None, None) eq_refl) as Hsrc.
    unfold Imagor.storageStat.
    destruct (stat_ok (Imagor.storageStat_loop _ _ _ _)) as [sourceStat|] eqn:Hok.
    + rewrite (stat_ok_Some _ _ Hok).
      unfold Before.
      destruct (ModifiedTime resStat <? ModifiedTime sourceStat) eqn:Hlt; simpl.
      * right. split; [|done]. intros (rs & ss & Hrs & Hss & Hle).
        injection Hrs as <-.
        rewrite (first_stat_unique _ _ _ _ _ Hss Hsrc) in Hle.
        apply Z.ltb_lt in Hlt. lia.
      * left. split; [|done]. exists resStat, sourceStat.
        apply Z.ltb_ge in Hlt. by repeat split.
    + right. split.
      * intros (rs & ss & _ & Hss & _). by apply first_stat_none in Hss.
      * by destruct (Imagor.storageStat_loop _ _ _ _) as [[?|] [?|]].
  - right. split.
    + intros (rs & ss & Hrs & _). congruence.
    + by destruct (Imagor.s_Stat origin _ _) as [[?|] [?|]].
Qed.

(** *** Rendering *)

(** C9, as amended. For every GET or HEAD request of an image (a path that is
    neither the root nor a params request), whatever the state of the
    caller's context: when the error [Do] returns is or wraps
    [context.Canceled], the response is 499 with no body; when [Do] returns
    another error, the status is the code of the wrapped error; when it
    returns no error, the status is 200. (A non-empty blob is taken to be
    non-nil.) *)
Theorem ServeHTTP_canceled app r :
  Method r = "GET" \/ Method r = "HEAD" ->
  EscapedPath r ≠ "/" -> EscapedPath r ≠ "" ->
  p_Params (Parse (EscapedPath r)) = false ->
  let res := checkBlob (value (Imagor.Do app r (Parse (EscapedPath r)))) in
  (isBlobEmpty (fst res) = false -> fst res ≠ None) ->
  let resp := value (Imagor.ServeHTTP app r) in
  (errors_Is (snd res) Canceled = true -> status resp = 499 /\ body resp = NoBody)
  /\ (errors_Is (snd res) Canceled = false ->
      status resp = match snd res with
                    | Some e => Code (WrapError e)
                    | None => 200
                    end).
Proof.
  intros Hm Hroot Hempty Hparams res Hnil resp. subst resp res.
  unfold Imagor.ServeHTTP.
  assert (negb (bool_decide (Method r = "GET")) && negb (bool_decide (Method r = "HEAD"))
          = false) as ->.
  { destruct Hm as [-> | ->]; done. }
  rewrite (bool_decide_eq_false_2 _ Hroot), (bool_decide_eq_false_2 _ Hempty), Hparams.
  simpl. rewrite value_bind.
  destruct (checkBlob (value (Imagor.Do app r (Parse (EscapedPath r)))))
    as [blob err] eqn:Hres. simpl in *.
  destruct err as [e|]; simpl.
  - destruct (isBlobEmpty blob) eqn:Hb; [|destruct blob as [b|]; [|by destruct Hnil]];
      (destruct (errors_Is_chain e Canceled); simpl;
       [by split|split; [done|intros _]];
       destruct (Imagor.DisableErrorBody app); simpl; [done|];
       try destruct (blob_NewReader b); done).
  - split; [done|intros _].
    destruct blob as [b|].
    + destruct (if p_Meta _ then blob_Meta b else None); simpl; [done|].
      destruct (isBlobEmpty (Some b)); simpl; [done|].
      by destruct (blob_NewReader b).
    + destruct (isBlobEmpty None) eqn:Hb; simpl; [done|by destruct Hnil].
Qed.

(** *** The pass sentinel at the surface *)

Lemma scan_all_failed hs blob err :
  Forall (fun h => isBlobEmpty (h_blob h) = true) hs ->
  scan hs blob err = inr (blob, latest_err hs err).
Proof.
  intros Hall. revert err. induction Hall as [|h rest Hh _ IH]; intros err; simpl; [done|].
  rewrite Hh. simpl. apply IH.
Qed.

(** A loader of the earlier engine that fails without a file. *)
Lemma legacy_load_loop_failed loadReq image loaders file err :
  Forall (fun l => Legacy.IsFileEmpty (fst (Legacy.l_Load l loadReq image)) = true
                   /\ snd (Legacy.l_Load l loadReq image) ≠ None) loaders ->
  Legacy.load_loop loadReq image loaders file err
  = (file,
     fold_left (fun _ l => snd (Legacy.l_Load l loadReq image)) loaders err,
     None).
Proof.
  intros Hall. revert err. induction Hall as [|l rest [Hf He] _ IH]; intros err; simpl; [done|].
  destruct (Legacy.l_Load l loadReq image) as [f [e|]]; simpl in *; [|done].
  rewrite Hf. simpl. apply IH.
Qed.

Lemma legacy_respond_no_pass lapp p res :
  body (Legacy.respond lapp p res) ≠ ErrorJSON ErrPass.
Proof.
  destruct res as [[file meta] err]. unfold Legacy.respond.
  destruct (Legacy.IsFileEmpty file), file as [f|]; simpl;
    destruct meta as [m|]; try destruct (p_Meta p); simpl; try done;
    destruct err as [e0|]; simpl; try done;
    destruct (Legacy.WrapError e0) as [e| | | |]; simpl; try done;
    repeat match goal with |- context [if ?c then _ else _] => destruct c; simpl end;
    try done; subst; congruence.
Qed.

(** C6, as amended. When every handler of a bytes-mode load fails without a
    blob, [load] returns the error of the last handler, whether or not that
    error is [ErrPass]: an earlier error does not survive a later [ErrPass].
    In the earlier engine, when every loader fails without a file, [load]
    returns the error of the last loader with [ErrPass] rewritten to
    [ErrNotFound]; and its [ServeHTTP] never writes [ErrPass] as an error
    body: an error that wraps to [ErrPass], with no file to send, is
    rendered as [ErrNotFound], with the status of [ErrNotFound]. *)
Theorem ErrPass_at_the_surface app r storages loaders key pre h
    (lapp : Legacy.Imagor) (lr : Request) image lpre l p e0 :
  key ≠ "" ->
  handlers app r storages loaders key = pre ++ [h] ->
  Forall failed (pre ++ [h]) ->
  Legacy.Loaders lapp = lpre ++ [l] ->
  Legacy.g lapp !! image = None ->
  Forall (fun l' =>
            Legacy.IsFileEmpty (fst (Legacy.l_Load l' (legacyLoadRequest lapp lr) image)) = true
            /\ snd (Legacy.l_Load l' (legacyLoadRequest lapp lr) image) ≠ None)
         (lpre ++ [l]) ->
  Legacy.IsFileEmpty None = true ->
  Legacy.WrapError e0 = EImagor ErrPass ->
  Imagor.load app r storages loaders key false = (None, None, h_err h)
  /\ value (Legacy.load lapp lr image)
     = (None, passToNotFound (snd (Legacy.l_Load l (legacyLoadRequest lapp lr) image)))
  /\ body (value (Legacy.ServeHTTP lapp lr)) ≠ ErrorJSON ErrPass
  /\ Legacy.respond lapp p (None, None, Some e0)
     = Legacy.resJSON 404 (ErrorJSON ErrNotFound).
Proof.
  intros Hkey Hhs Hfail Hl Hg Hlfail Hnil Hwrap.
  split; [|split; [|split]].
  - rewrite load_bytes by done. rewrite Hhs.
    rewrite scan_all_failed by (eapply Forall_impl; [exact Hfail|by intros ? [? _]]).
    rewrite latest_err_snoc. unfold Imagor.load_finish.
    apply Forall_app in Hfail as [_ Hh]. apply Forall_cons in Hh as [[_ Hh] _].
    by destruct (h_err h).
  - unfold Legacy.load, Legacy.suppress. rewrite Hg, Hl.
    match goal with
    | |- context [Legacy.load_loop ?rq _ _ _ _] =>
        replace rq with (legacyLoadRequest lapp lr)
          by (unfold legacyLoadRequest; by destruct (0 <? Legacy.LoadTimeout lapp))
    end.
    rewrite legacy_load_loop_failed by done.
    rewrite fold_left_app. simpl.
    apply Forall_app in Hlfail as [_ Hlast]. apply Forall_cons in Hlast as [[_ Hlast] _].
    destruct (snd (Legacy.l_Load l (legacyLoadRequest lapp lr) image)) as [e|]; [|done].
    simpl. destruct (decide (e = EImagor ErrPass)) as [->|Hne].
    + done.
    + rewrite (bool_decide_eq_false_2 _ Hne), andb_false_r.
      destruct e as [[]| | | |]; done.
  - unfold Legacy.ServeHTTP.
    destruct (bool_decide (EscapedPath lr = "/")); [done|].
    destruct (p_Params _); [done|].
    rewrite value_bind. apply legacy_respond_no_pass.
  - unfold Legacy.respond. rewrite Hnil, Hwrap. simpl. done.
Qed.

(** *** Meta mode *)

Lemma load_meta_miss ctx key storages err :
  Forall (fun s => meta_ok (Imagor.s_Meta s ctx key) = None) storages ->
  Imagor.load_meta ctx key storages err = inr (held_err ctx key storages err).
Proof.
  intros Hall. revert err. induction Hall as [|s rest Hs _ IH]; intros err; simpl; [done|].
  destruct (Imagor.s_Meta s ctx key) as [[m|] [e|]]; simpl in *; try apply IH.
  discriminate.
Qed.

Lemma load_meta_hit ctx key pre s post m err :
  Forall (fun s' => meta_ok (Imagor.s_Meta s' ctx key) = None) pre ->
  meta_ok (Imagor.s_Meta s ctx key) = Some m ->
  Imagor.load_meta ctx key (pre ++ s :: post) err
  = inl (Some (setMeta NewEmptyBlob m), Some s, held_err ctx key pre err).
Proof.
  intros Hpre Hs. revert err.
  induction Hpre as [|s' rest Hs' _ IH]; intros err; simpl.
  - destruct (Imagor.s_Meta s ctx key) as [[m'|] [e|]]; simpl in Hs; try discriminate.
    by injection Hs as ->.
  - destruct (Imagor.s_Meta s' ctx key) as [[m'|] [e|]]; simpl in *; try apply IH.
    discriminate.
Qed.

Lemma first_split {A : Type} (f : A -> bool) (l : list A) :
  Exists (fun x => f x = true) l ->
  exists pre x post,
    l = pre ++ x :: post /\ Forall (fun y => f y = false) pre /\ f x = true.
Proof.
  induction l as [|x rest IH]; intros Hex; [by apply Exists_nil in Hex|].
  destruct (f x) eqn:Hx.
  - exists [], x, rest. by repeat split.
  - apply Exists_cons in Hex as [Hex|Hex]; [congruence|].
    destruct (IH Hex) as (pre & y & post & -> & Hpre & Hy).
    exists (x :: pre), y, post. repeat split; [|done]. by constructor.
Qed.

(** Either some storage has metadata, and there is a first one, or none has. *)
Lemma meta_first_hit ctx key storages :
  (exists pre s post m,
      storages = pre ++ s :: post
      /\ Forall (fun s' => meta_ok (Imagor.s_Meta s' ctx key) = None) pre
      /\ meta_ok (Imagor.s_Meta s ctx key) = Some m)
  \/ Forall (fun s => meta_ok (Imagor.s_Meta s ctx key) = None) storages.
Proof.
  set (hit := fun s => bool_decide (is_Some (meta_ok (Imagor.s_Meta s ctx key)))).
  assert (forall s, hit s = false -> meta_ok (Imagor.s_Meta s ctx key) = None) as Hmiss.
  { intros s Hs. apply bool_decide_eq_false in Hs.
    destruct (meta_ok (Imagor.s_Meta s ctx key)) eqn:Hm; [|done].
    exfalso. apply Hs. by eexists. }
  destruct (decide (Exists (fun s => hit s = true) storages)) as [Hex|Hn].
  - left. destruct (first_split hit storages Hex) as (pre & s & post & -> & Hpre & Hs).
    apply bool_decide_eq_true in Hs as [m Hm].
    exists pre, s, post, m. split; [done|]. split; [|done].
    eapply Forall_impl; [exact Hpre|]. exact Hmiss.
  - right. apply Forall_forall. intros s Hin. apply Hmiss.
    destruct (hit s) eqn:Hs; [|done].
    exfalso. apply Hn, Exists_exists. eauto.
Qed.

Lemma load_meta_ctx app r :
  (if 0 <? Imagor.LoadTimeout app
   then WithTimeout (rctx r) (Imagor.LoadTimeout app) else rctx r)
  = rctx (loadRequest app r).
Proof. unfold loadRequest. by destruct (0 <? Imagor.LoadTimeout app). Qed.

(** [load] in meta mode is its loop over the storages. *)
Lemma load_meta_mode_loop app r storages loaders key :
  key ≠ "" ->
  Imagor.load app r storages loaders key true
  = match Imagor.load_meta (rctx (loadRequest app r)) key storages None with
    | inl res => res
    | inr err => (None, None, err)
    end.
Proof.
  intros Hkey. unfold Imagor.load.
  destruct (decide (key = "")) as [|_]; [done|].
  rewrite load_meta_ctx.
  destruct (Imagor.load_meta _ _ _ _) as [res|err]; [done|].
  unfold Imagor.load_finish. destruct err; [done|].
  by rewrite andb_false_r.
Qed.


(** X1. In meta mode, for a non-empty key, [load] stops at the first storage
    whose [Meta] returns metadata and a nil error: it returns an empty blob
    carrying that metadata and that storage as origin, never consults the
    loaders, and the error it returns with the hit is the one left by the
    storage consulted just before (nil for the first storage), not nil. When
    no storage has metadata it returns a nil blob, no origin and the error of
    the last storage, and never [ErrNotFound] of its own. *)
Theorem load_meta_mode app r storages loaders key :
  key ≠ "" ->
  let ctx := rctx (loadRequest app r) in
  (forall pre s post m,
      storages = pre ++ s :: post ->
      Forall (fun s' => meta_ok (Imagor.s_Meta s' ctx key) = None) pre ->
      meta_ok (Imagor.s_Meta s ctx key) = Some m ->
      Imagor.load app r storages loaders key true
      = (Some (setMeta NewEmptyBlob m), Some s, held_err ctx key pre None))
  /\ (Forall (fun s => meta_ok (Imagor.s_Meta s ctx key) = None) storages ->
      Imagor.load app r storages loaders key true
      = (None, None, held_err ctx key storages None)).
Proof.
  intros Hkey ctx. split.
  - intros pre s post m -> Hpre Hs.
    rewrite load_meta_mode_loop by done. fold ctx.
    by rewrite (load_meta_hit ctx key pre s post m).
  - intros Hall. rewrite load_meta_mode_loop by done. fold ctx.
    by rewrite load_meta_miss.
Qed.

Lemma handlers_origin app r storages loaders key pre h post s :
  handlers app r storages loaders key = pre ++ h :: post ->
  fst h = Some s ->
  s ∈ storages /\ snd h = checkBlob (Imagor.s_Get s (loadRequest app r) key).
Proof.
  intros Heq Hs.
  assert (h ∈ handlers app r storages loaders key) as Hin.
  { rewrite Heq. apply elem_of_app. right. apply elem_of_cons. by left. }
  unfold handlers in Hin. apply elem_of_app in Hin as [Hin|Hin];
    apply list_elem_of_In, in_map_iff in Hin as (x & <- & Hx); simpl in Hs.
  - injection Hs as ->. split; [by apply list_elem_of_In|done].
  - discriminate.
Qed.

(** X2. The origin [load] names is the storage that served the blob. In
    either mode, when [load] returns a storage as origin, that storage is one
    of the storages it was given; in bytes mode the error is nil and the blob
    is the non-empty blob that storage's [Get] returned; in meta mode the
    blob is the empty blob carrying the metadata that storage's [Meta]
    returned with a nil error. *)
Theorem load_origin app r storages loaders key metaMode blob s err :
  Imagor.load app r storages loaders key metaMode = (blob, Some s, err) ->
  s ∈ storages
  /\ (metaMode = false ->
      err = None /\ isBlobEmpty blob = false
      /\ checkBlob (Imagor.s_Get s (loadRequest app r) key) = (blob, None))
  /\ (metaMode = true ->
      exists m, Imagor.s_Meta s (rctx (loadRequest app r)) key = (Some m, None)
                /\ blob = Some (setMeta NewEmptyBlob m)).
Proof.
  intros Hload.
  destruct (decide (key = "")) as [->|Hkey]; [by unfold Imagor.load in Hload|].
  destruct metaMode.
  - set (ctx := rctx (loadRequest app r)).
    rewrite load_meta_mode_loop in Hload by done. fold ctx in Hload.
    destruct (meta_first_hit ctx key storages)
      as [(pre & s' & post & m & -> & Hmiss & Hm)|Hmiss].
    + rewrite (load_meta_hit ctx key pre s' post m) in Hload by done.
      injection Hload as <- <- <-.
      split; [apply elem_of_app; right; apply elem_of_cons; by left|].
      split; [done|]. intros _. exists m. split; [|done].
      destruct (Imagor.s_Meta s' ctx key) as [[?|] [?|]]; simpl in Hm; congruence.
    + by rewrite load_meta_miss in Hload.
  - destruct (load_bytes_cases app r storages loaders key Hkey)
      as [(pre & h & post & Heq & Hpre & Hh & Hl)|[_ Hl]]; rewrite Hl in Hload.
    + injection Hload as <- Ho <-.
      destruct (handlers_origin _ _ _ _ _ _ _ _ _ Heq Ho) as [Hin Hget].
      apply clean_inv in Hh as [Hb He].
      split; [done|]. split; [|done]. intros _.
      split; [done|]. split; [done|].
      rewrite <- Hget. destruct h as [o [b e]]. unfold h_blob, h_err in *.
      simpl in *. by rewrite He.
    + unfold Imagor.load_finish in Hload.
      destruct (latest_err _ None); [done|].
      by destruct (isBlobEmpty _ && negb false).
Qed.

(** X3. The meta-mode probe of the result cache, without the modified-time
    check: for a non-empty result key, [loadResult] returns a blob exactly
    when some result storage has metadata for the key and the storage
    consulted just before the first such storage left a nil error; the blob
    is then the empty blob carrying that metadata. A hit that follows a
    storage whose [Meta] failed is ignored. *)
Theorem loadResult_meta app r resultKey imageKey b :
  resultKey ≠ "" ->
  Imagor.ModifiedTimeCheck app = false ->
  let ctx := rctx (loadRequest app r) in
  Imagor.loadResult app r resultKey imageKey true = Some b
  <-> exists pre s post m,
        Imagor.ResultStorages app = pre ++ s :: post
        /\ Forall (fun s' => meta_ok (Imagor.s_Meta s' ctx resultKey) = None) pre
        /\ meta_ok (Imagor.s_Meta s ctx resultKey) = Some m
        /\ held_err ctx resultKey pre None = None
        /\ b = setMeta NewEmptyBlob m.
Proof.
  intros Hkey Hcheck ctx. unfold Imagor.loadResult. rewrite Hcheck.
  rewrite load_meta_mode_loop by done. fold ctx. split.
  - destruct (meta_first_hit ctx resultKey (Imagor.ResultStorages app))
      as [(pre & s & post & m & Heq & Hmiss & Hm)|Hmiss].
    + rewrite Heq, (load_meta_hit ctx resultKey pre s post m) by done.
      destruct (held_err ctx resultKey pre None) eqn:Hheld; [done|].
      rewrite orb_true_r. intros [= <-].
      exists pre, s, post, m. by repeat split.
    + rewrite load_meta_miss by done.
      destruct (held_err _ _ _ None); [done|]. by rewrite orb_true_r.
  - intros (pre & s & post & m & -> & Hpre & Hs & Hheld & ->).
    rewrite (load_meta_hit ctx resultKey pre s post m) by done.
    by rewrite Hheld, orb_true_r.
Qed.

(** *** Auto-format *)

Lemma hasFormat_appended p v :
  hasFormat (setPath (setFilters p (p_Filters p ++ [mkFilter "format" v]))
                     (GeneratePath (setFilters p (p_Filters p ++ [mkFilter "format" v]))))
  = true.
Proof.
  unfold hasFormat. simpl. rewrite existsb_app. simpl. by rewrite orb_true_r.
Qed.

(** X4. The auto-format step of [Do] is applied at most once: applying it to
    its own result changes nothing. It never touches the image key, the hash,
    the unsafe and meta flags; it leaves params that already carry a [format]
    filter as they are; and when AVIF is enabled and accepted it appends
    [format(avif)], whether or not WebP is enabled and accepted too. *)
Theorem autoFormat_once app r p :
  let q := Imagor.autoFormat app r p in
  Imagor.autoFormat app r q = q
  /\ (p_Image q = p_Image p /\ p_Hash q = p_Hash p /\ p_Unsafe q = p_Unsafe p
      /\ p_Meta q = p_Meta p /\ p_Params q = p_Params p)
  /\ (hasFormat p = true -> q = p)
  /\ (Imagor.AutoAVIF app = true -> hasFormat p = false ->
      Contains (Accept r) "image/avif" = true ->
      p_Filters q = p_Filters p ++ [mkFilter "format" "avif"]).
Proof.
  intros q. subst q. unfold Imagor.autoFormat. fold (hasFormat p).
  split; [|split; [|split]].
  - destruct (Imagor.AutoWebP app || Imagor.AutoAVIF app); [|done].
    destruct (hasFormat p) eqn:Hp; simpl; [fold (hasFormat p); by rewrite Hp|].
    destruct (Imagor.AutoAVIF app && Contains (Accept r) "image/avif").
    { match goal with
      | |- context [existsb _ (p_Filters ?x)] => fold (hasFormat x)
      end.
      by rewrite hasFormat_appended. }
    destruct (Imagor.AutoWebP app && Contains (Accept r) "image/webp").
    { match goal with
      | |- context [existsb _ (p_Filters ?x)] => fold (hasFormat x)
      end.
      by rewrite hasFormat_appended. }
    fold (hasFormat p). by rewrite ?Hp.
  - destruct (Imagor.AutoWebP app || Imagor.AutoAVIF app); [|done].
    destruct (hasFormat p); simpl; [done|].
    destruct (Imagor.AutoAVIF app && Contains (Accept r) "image/avif"); [done|].
    by destruct (Imagor.AutoWebP app && Contains (Accept r) "image/webp").
  - intros Hp. rewrite Hp. simpl. by destruct (Imagor.AutoWebP app || Imagor.AutoAVIF app).
  - intros Havif Hp Haccept. rewrite Havif, Hp, Haccept, orb_true_r. done.
Qed.

(** *** The processor chain, continued *)

(** X5. The blob the chain ends with is empty only when a processor returned
    it with a nil error: started on a non-empty blob, the chain ends with a
    non-empty blob whenever it ends with an error or with every processor
    passing. And [ErrPass] is never the error of the chain: the chain ends
    with [ErrPass] only if it was started with it. *)
Theorem process_loop_keeps_blob ctx p load processors blob err :
  let res := value (Imagor.process_loop ctx p load processors blob err) in
  (isBlobEmpty blob = false ->
   isBlobEmpty (fst res) = false
   \/ (snd res = None
       /\ exists q cur, q ∈ processors
            /\ checkBlob (value (Imagor.Process q ctx cur p load)) = (fst res, None)))
  /\ (snd res = Some (EImagor ErrPass) -> err = Some (EImagor ErrPass)).
Proof.
  revert blob err. induction processors as [|q rest IH]; intros blob err res; subst res.
  - simpl. split; [by left|done].
  - rewrite process_loop_cons.
    destruct (checkBlob (value (Imagor.Process q ctx blob p load))) as [b [e|]] eqn:Hq.
    + destruct (decide (e = EImagor ErrPass)) as [->|Hne].
      * destruct (IH (if negb (isBlobEmpty b) then b else blob) err) as [IHb IHe].
        split; [|exact IHe]. intros Hblob.
        destruct IHb as [Hres|(Hres & q' & cur & Hin & Hq')].
        -- by destruct (isBlobEmpty b) eqn:Hb.
        -- by left.
        -- right. split; [done|]. exists q', cur. split; [|done].
           apply elem_of_cons. by right.
      * simpl. destruct (errors_Is_chain e DeadlineExceeded) eqn:Hd.
        -- simpl. split; [by left|]. intros [= ->]. done.
        -- destruct (IH blob (Some e)) as [IHb IHe].
           split.
           ++ intros Hblob. destruct (IHb Hblob) as [Hres|(Hres & q' & cur & Hin & Hq')].
              ** by left.
              ** right. split; [done|]. exists q', cur. split; [|done].
                 apply elem_of_cons. by right.
           ++ intros Hres. specialize (IHe Hres). congruence.
    + simpl. split; [|done]. intros _. right. split; [done|].
      exists q, blob. split; [apply elem_of_cons; by left|done].
Qed.

(** *** The single-flight wrapper, continued *)

Lemma first_settled_sound pending res :
  first_settled pending = Some res -> errors_Is (snd res) Canceled = false.
Proof.
  induction pending as [|res' later IH]; simpl; [done|].
  destruct (errors_Is (snd res') Canceled) eqn:Hc; [exact IH|].
  by intros [= <-].
Qed.

Lemma suppress_wait_live {V : Type} pending (v0 : V) ctx key
    (fn : Context -> M (Result * V)) :
  ctx_err ctx = None ->
  Imagor.suppress_wait pending v0 ctx key fn
  = match first_settled pending with
    | Some res => ret (res, v0)
    | None => fn (WithValue ctx key)
    end.
Proof.
  intros Hlive. induction pending as [|res later IH]; simpl.
  - rewrite Hlive. apply bind_ret_r.
  - rewrite Hlive. by destruct (errors_Is (snd res) Canceled).
Qed.

(** X6. A caller whose context is live and does not carry the marker takes
    the first result in flight for the key that is not a cancellation,
    without running [fn] and without touching the variables [fn] captures;
    when every call in flight ends canceled, or none is in flight, it runs
    [fn] itself on the marked context. So the cancellation of another
    caller is never handed to a caller that is still alive. *)
Theorem suppress_follower {V : Type} (app : Imagor.Imagor) (v0 : V)
    (ctx : Context) (key : string) (fn : Context -> M (Result * V)) :
  isAcquired ctx key = false ->
  ctx_err ctx = None ->
  Imagor.suppress app v0 ctx key fn
  = match first_settled (default [] (Imagor.g app !! key)) with
    | Some res => ret (res, v0)
    | None => fn (WithValue ctx key)
    end
  /\ (forall res, first_settled (default [] (Imagor.g app !! key)) = Some res ->
      errors_Is (snd res) Canceled = false).
Proof.
  intros Hm Hlive. split.
  - unfold Imagor.suppress. rewrite Hm. by apply suppress_wait_live.
  - intros res. apply first_settled_sound.
Qed.

Lemma suppress_wait_fired {V : Type} pending (v0 : V) ctx key
    (fn : Context -> M (Result * V)) e :
  ctx_err ctx = Some e ->
  fst (value (Imagor.suppress_wait pending v0 ctx key fn)) = (None, Some e)
  /\ (pending ≠ [] -> Imagor.suppress_wait pending v0 ctx key fn = ret ((None, Some e), v0)).
Proof.
  intros Hfired. destruct pending as [|res later]; simpl; rewrite Hfired.
  - split; [|done]. by destruct (fn (WithValue ctx key)) as [[? ?] ?].
  - by split.
Qed.

(** X7. A caller that does not carry the marker and whose context fires
    while it waits returns a nil blob and the error of its context, whatever
    [fn] or the call in flight returns; when a call is in flight for the key
    it runs nothing and writes nothing. *)
Theorem suppress_abandoned {V : Type} (app : Imagor.Imagor) (v0 : V)
    (ctx : Context) (key : string) (fn : Context -> M (Result * V)) e :
  isAcquired ctx key = false ->
  ctx_err ctx = Some e ->
  fst (value (Imagor.suppress app v0 ctx key fn)) = (None, Some e)
  /\ (default [] (Imagor.g app !! key) ≠ [] ->
      Imagor.suppress app v0 ctx key fn = ret ((None, Some e), v0)).
Proof.
  intros Hm Hfired. unfold Imagor.suppress. rewrite Hm.
  by apply suppress_wait_fired.
Qed.

(** *** Do as a whole *)

Lemma autoFormat_accept app r1 r2 p :
  Accept r1 = Accept r2 -> Imagor.autoFormat app r1 p = Imagor.autoFormat app r2 p.
Proof. intros Ha. unfold Imagor.autoFormat. by rewrite Ha. Qed.

Lemma requestOf_accept app r : Accept (requestOf app r) = Accept r.
Proof. unfold requestOf. by destruct (0 <? Imagor.RequestTimeout app). Qed.

Lemma requestOf_rctx app r : rctx (requestOf app r) = requestCtx app r.
Proof.
  unfold requestOf, requestCtx. by destruct (0 <? Imagor.RequestTimeout app).
Qed.

Lemma requestCtx_held app r : ctx_held (requestCtx app r) = ctx_held (rctx r).
Proof. unfold requestCtx. by destruct (0 <? Imagor.RequestTimeout app). Qed.

(** The request context fires with the caller's error, or with a deadline of
    its own. *)
Lemma requestCtx_err app r e :
  ctx_err (rctx r) = Some e -> ctx_err (requestCtx app r) = Some e.
Proof.
  intros He. unfold requestCtx.
  destruct (0 <? Imagor.RequestTimeout app); [|done]. simpl. by rewrite He.
Qed.

Lemma requestCtx_deadline app r e :
  ctx_err (rctx r) = None -> ctx_err (requestCtx app r) = Some e ->
  e = DeadlineExceeded /\ 0 < Imagor.RequestTimeout app.
Proof.
  intros Hlive. unfold requestCtx.
  destruct (0 <? Imagor.RequestTimeout app) eqn:Ht; [|congruence].
  apply Z.ltb_lt in Ht. simpl. rewrite Hlive.
  destruct (ctx_expires _ _); [|done]. by intros [= <-].
Qed.

(** [Do], stage by stage. *)
Lemma Do_stages app r p :
  let p' := normalize app r p in
  let rk := resultKeyOf app p' in
  let r' := requestOf app r in
  Imagor.Do app r p
  = if gateFails app p then ret (None, Some (EImagor ErrSignatureMismatch))
    else match (if p_Meta p'
                then Imagor.loadResult app r' rk (p_Image p') true else None) with
         | Some blob => ret (Some blob, None)
         | None =>
             bind (Imagor.suppress app tt (requestCtx app r) ("res:" +:+ rk)
                     (Imagor.Do_fn app r' p' rk (loadOf app r')))
                  (fun rv => ret (fst rv))
         end.
Proof.
  intros p' rk r'. subst p' rk r'. unfold Imagor.Do, gateFails, normalize.
  fold (requestCtx app r). fold (requestOf app r).
  rewrite (autoFormat_accept app (requestOf app r) r) by apply requestOf_accept.
  reflexivity.
Qed.

(** What a call of [suppress] does, by whether it runs [fn] itself. *)
Lemma suppress_invoked {V : Type} app (v0 : V) ctx key
    (fn : Context -> M (Result * V)) :
  invoked app ctx key = true ->
  trace (Imagor.suppress app v0 ctx key fn) = trace (fn (fnCtx ctx key))
  /\ (isAcquired ctx key = true \/ ctx_err ctx = None ->
      Imagor.suppress app v0 ctx key fn = fn (fnCtx ctx key))
  /\ (isAcquired ctx key = false -> forall e, ctx_err ctx = Some e ->
      value (Imagor.suppress app v0 ctx key fn) = ((None, Some e), v0)).
Proof.
  unfold invoked, Imagor.suppress, fnCtx.
  destruct (isAcquired ctx key); simpl.
  { intros _. split; [done|]. split; [done|]. done. }
  destruct (default [] (Imagor.g app !! key)) as [|res later] eqn:Hg.
  - intros _. simpl.
    destruct (fn (WithValue ctx key)) as [rv t].
    destruct (ctx_err ctx) as [e|]; simpl; rewrite app_nil_r.
    + split; [done|]. split; [by intros [?|?]|]. by intros _ e' [= <-].
    + split; [done|]. split; [done|]. done.
  - destruct (ctx_err ctx) as [e|] eqn:Hlive; [done|]. intros Hinv.
    assert (first_settled (res :: later) = None) as Hs.
    { simpl. by destruct (if errors_Is (snd res) Canceled then _ else _). }
    rewrite suppress_wait_live, Hs by done.
    split; [done|]. split; [done|]. done.
Qed.

Lemma suppress_not_invoked {V : Type} app (v0 : V) ctx key
    (fn : Context -> M (Result * V)) :
  invoked app ctx key = false ->
  exists res, Imagor.suppress app v0 ctx key fn = ret (res, v0).
Proof.
  unfold invoked, Imagor.suppress.
  destruct (isAcquired ctx key); simpl; [done|].
  destruct (default [] (Imagor.g app !! key)) as [|res later] eqn:Hg; [done|].
  destruct (ctx_err ctx) as [e|] eqn:Hlive.
  - intros _. exists (None, Some e). simpl. by rewrite Hlive.
  - intros Hinv.
    assert (exists res', first_settled (res :: later) = Some res') as [res' Hs].
    { simpl. destruct (if errors_Is (snd res) Canceled then _ else _); [|done].
      by eexists. }
    exists res'. by rewrite suppress_wait_live, Hs.
Qed.

(** What [loadStorage] does, by whether its call of [suppress] runs the
    function literal. *)
Lemma loadStorage_run app r key :
  let ctx := rctx r in
  let skey := "img:" +:+ key in
  let run := Imagor.loadStorage_fn app r key (fnCtx ctx skey) in
  (invoked app ctx skey = true ->
   isAcquired ctx skey = true \/ ctx_err ctx = None ->
   Imagor.loadStorage app r key
   = ((fst (fst (value run)), snd (value run), snd (fst (value run))), trace run))
  /\ (invoked app ctx skey = true -> isAcquired ctx skey = false ->
      forall e, ctx_err ctx = Some e ->
      Imagor.loadStorage app r key = ((None, false, Some e), trace run))
  /\ (invoked app ctx skey = false ->
      exists res, Imagor.loadStorage app r key = ret (fst res, false, snd res)).
Proof.
  intros ctx skey run. subst run. unfold Imagor.loadStorage. fold ctx skey.
  split; [|split].
  - intros Hinv Hwaits.
    destruct (suppress_invoked app false ctx skey (Imagor.loadStorage_fn app r key) Hinv)
      as (_ & Heq & _).
    rewrite Heq by exact Hwaits.
    destruct (Imagor.loadStorage_fn _ _ _ _) as [[[b e] v] t]. simpl.
    by rewrite app_nil_r.
  - intros Hinv Hm e He.
    destruct (suppress_invoked app false ctx skey (Imagor.loadStorage_fn app r key) Hinv)
      as (Ht & _ & Hv).
    specialize (Hv Hm e He).
    destruct (Imagor.suppress _ _ _ _ _) as [rv t]. simpl in Ht, Hv. subst rv t.
    simpl. by rewrite app_nil_r.
  - intros Hinv.
    destruct (suppress_not_invoked app false ctx skey (Imagor.loadStorage_fn app r key) Hinv)
      as [res ->].
    by exists res.
Qed.

Lemma loadStorage_trace app r key :
  trace (Imagor.loadStorage app r key) = []
  \/ exists c blob,
       Imagor.Storages app ≠ []
       /\ trace (Imagor.loadStorage app r key)
          = puts c (Imagor.Storages app) key blob.
Proof.
  destruct (loadStorage_run app r key) as (Hwait & Hfired & Hother).
  destruct (loadStorage_fn_cases app r key (fnCtx (rctx r) ("img:" +:+ key)))
    as [(_ & _ & _ & Hs & Hrun)|(_ & Hrun)]; rewrite Hrun in Hwait, Hfired;
    simpl in Hwait, Hfired;
    (destruct (invoked app (rctx r) ("img:" +:+ key)) eqn:Hinv;
     [|destruct (Hother eq_refl) as [res ->]; by left]);
    (destruct (isAcquired (rctx r) ("img:" +:+ key)) eqn:Hm;
     [rewrite Hwait by auto|
      destruct (ctx_err (rctx r)) as [e|] eqn:He;
      [rewrite (Hfired eq_refl eq_refl e eq_refl)|rewrite Hwait by auto]]);
    simpl; try (by left); right; by eexists _, _.
Qed.

(** The flag [loadStorage] returns is true only when the call saved back. *)
Lemma loadStorage_flag app r key :
  snd (fst (value (Imagor.loadStorage app r key))) = true ->
  exists c blob,
    Imagor.Storages app ≠ []
    /\ trace (Imagor.loadStorage app r key) = puts c (Imagor.Storages app) key blob.
Proof.
  destruct (loadStorage_run app r key) as (Hwait & Hfired & Hother).
  destruct (loadStorage_fn_cases app r key (fnCtx (rctx r) ("img:" +:+ key)))
    as [(_ & _ & _ & Hs & Hrun)|(_ & Hrun)]; rewrite Hrun in Hwait, Hfired;
    simpl in Hwait, Hfired;
    (destruct (invoked app (rctx r) ("img:" +:+ key)) eqn:Hinv;
     [|destruct (Hother eq_refl) as [res ->]; done]);
    (destruct (isAcquired (rctx r) ("img:" +:+ key)) eqn:Hm;
     [rewrite Hwait by auto|
      destruct (ctx_err (rctx r)) as [e|] eqn:He;
      [rewrite (Hfired eq_refl eq_refl e eq_refl)|rewrite Hwait by auto]]);
    simpl; try done; intros _; by eexists _, _.
Qed.

(** What a processor's loads write: save-backs to the source storages. *)
Lemma loadOf_trace app r image :
  trace (loadOf app r image) = trace (Imagor.loadStorage app r image).
Proof.
  unfold loadOf. rewrite trace_bind.
  destruct (value (Imagor.loadStorage app r image)) as [[b v] e]. simpl.
  apply app_nil_r.
Qed.

Lemma puts_saves app ctx key blob :
  Forall (savesSource app) (puts ctx (Imagor.Storages app) key blob).
Proof.
  apply Forall_forall. intros ev Hev. unfold puts in Hev.
  apply list_elem_of_fmap in Hev as (s & -> & Hs).
  by exists s, ctx, key, blob.
Qed.

Lemma loadStorage_saves app r key :
  Forall (savesSource app) (trace (Imagor.loadStorage app r key)).
Proof.
  destruct (loadStorage_trace app r key) as [->|(c & blob & _ & ->)];
    [constructor|apply puts_saves].
Qed.

Lemma follow_saves app r steps :
  Forall (savesSource app) (trace (Imagor.follow (loadOf app r) steps)).
Proof.
  induction steps as [res|image next IH]; simpl; [constructor|].
  rewrite trace_bind. apply Forall_app. split; [|apply IH].
  rewrite loadOf_trace. apply loadStorage_saves.
Qed.

Lemma process_loop_saves app r ctx p processors blob err :
  Forall (savesSource app)
    (trace (Imagor.process_loop ctx p (loadOf app r) processors blob err)).
Proof.
  revert blob err. induction processors as [|q rest IH]; intros blob err; simpl;
    [constructor|].
  rewrite trace_bind. apply Forall_app. split; [apply follow_saves|].
  destruct (checkBlob _) as [b [e|]]; [|constructor].
  destruct (decide (e = EImagor ErrPass)); [apply IH|].
  destruct (errors_Is_chain e DeadlineExceeded); [constructor|apply IH].
Qed.

(** The function literal of [Do], once past the result cache and the
    semaphore. *)
Lemma Do_fn_run app r p rk load c :
  (if negb (p_Meta p) then Imagor.loadResult app r rk (p_Image p) false else None)
  = None ->
  acquired app c = None ->
  Imagor.Do_fn app r p rk load c
  = bind (Imagor.loadStorage app r (p_Image p)) (fun ls =>
      match snd ls with
      | Some _ => ret ((fst (fst ls), snd ls), tt)
      | None =>
          if isBlobEmpty (fst (fst ls)) then ret ((fst (fst ls), None), tt)
          else Imagor.Do_process app p rk load c (fst (fst ls)) (snd (fst ls))
      end).
Proof.
  intros Hprobe Hsema. unfold Imagor.Do_fn. rewrite Hprobe.
  fold (acquired app c). rewrite Hsema.
  destruct (Imagor.loadStorage app r (p_Image p)) as [[[blob isSave] err] t].
  simpl. by destruct err.
Qed.

(** The function literal of [Do] writes nothing when it stops at the result
    cache or at the semaphore. *)
Lemma Do_fn_idle app r p rk load c :
  (if negb (p_Meta p) then Imagor.loadResult app r rk (p_Image p) false else None)
  ≠ None \/ acquired app c ≠ None ->
  trace (Imagor.Do_fn app r p rk load c) = [].
Proof.
  intros Hstop. unfold Imagor.Do_fn.
  destruct (if negb (p_Meta p) then _ else None); [done|].
  fold (acquired app c). destruct (acquired app c); [done|].
  by destruct Hstop.
Qed.

Lemma probe_split app r rk image (meta : bool) :
  Imagor.loadResult app r rk image meta = None
  <-> (if meta then Imagor.loadResult app r rk image true else None) = None
      /\ (if negb meta then Imagor.loadResult app r rk image false else None) = None.
Proof. destruct meta; simpl; split; try tauto; by intros [? ?]. Qed.

(** What a request writes: nothing unless it fetches; then what the fetch
    writes, followed by what the end of the function literal writes when
    the fetch hands it a non-empty blob and a nil error. *)
Lemma Do_trace app r p :
  let p' := normalize app r p in
  let rk := resultKeyOf app p' in
  let c := fnCtx (requestCtx app r) ("res:" +:+ rk) in
  (fetches app r p ->
   trace (Imagor.Do app r p)
   = trace (fetch app r p)
     ++ match value (fetch app r p) with
        | (src, saved, None) =>
            if isBlobEmpty src then []
            else trace (Imagor.Do_process app p' rk (loadOf app (requestOf app r))
                          c src saved)
        | _ => []
        end)
  /\ (~ fetches app r p -> trace (Imagor.Do app r p) = []).
Proof.
  intros p' rk c. rewrite Do_stages. fold p' rk. unfold fetches. fold p' rk c.
  split.
  - intros (Hgate & [Hmeta Hplain]%probe_split & Hinv & Hsema).
    rewrite Hgate, Hmeta, trace_bind_ret.
    destruct (suppress_invoked app tt (requestCtx app r) ("res:" +:+ rk)
                (Imagor.Do_fn app (requestOf app r) p' rk (loadOf app (requestOf app r)))
                Hinv) as (-> & _).
    fold c. rewrite Do_fn_run by done. rewrite trace_bind. unfold fetch. fold p'.
    destruct (value (Imagor.loadStorage app (requestOf app r) (p_Image p')))
      as [[src saved] [e|]]; simpl; [done|].
    by destruct (isBlobEmpty src).
  - intros Hnot.
    destruct (gateFails app p) eqn:Hgate; [done|].
    destruct (if p_Meta p' then _ else None) eqn:Hmeta; [done|].
    rewrite trace_bind_ret.
    destruct (invoked app (requestCtx app r) ("res:" +:+ rk)) eqn:Hinv.
    + destruct (suppress_invoked app tt (requestCtx app r) ("res:" +:+ rk)
                  (Imagor.Do_fn app (requestOf app r) p' rk (loadOf app (requestOf app r)))
                  Hinv) as (-> & _).
      fold c. apply Do_fn_idle.
      destruct (if negb (p_Meta p') then _ else None) eqn:Hplain; [by left|].
      destruct (acquired app c) eqn:Hsema; [by right|].
      exfalso. apply Hnot. split; [done|]. split; [by apply probe_split|by split].
    + destruct (suppress_not_invoked app tt (requestCtx app r) ("res:" +:+ rk)
                  (Imagor.Do_fn app (requestOf app r) p' rk (loadOf app (requestOf app r)))
                  Hinv) as [res ->].
      done.
Qed.

(** Whether a request fetches can be told. *)
Lemma fetches_dec app r p : fetches app r p \/ ~ fetches app r p.
Proof.
  unfold fetches.
  destruct (gateFails app p); [right; by intros (? & _)|].
  destruct (Imagor.loadResult _ _ _ _ _); [right; by intros (_ & ? & _)|].
  destruct (invoked _ _ _); [|right; by intros (_ & _ & ? & _)].
  destruct (acquired _ _); [right; by intros (_ & _ & _ & ?)|].
  by left.
Qed.

(** What a request that reaches the chain writes. *)
Lemma Do_reaches app r p src saved :
  reaches app r p src saved ->
  let out := value (chainRun app r p src) in
  trace (Imagor.Do app r p)
  = trace (fetch app r p) ++ trace (chainRun app r p src)
    ++ (match snd out with
        | None => puts (saveCtx app (chainCtx app r p)) (Imagor.ResultStorages app)
                    (resultKeyOf app (normalize app r p)) (fst out)
        | Some _ => []
        end)
    ++ (match snd out with
        | Some _ => if saved
                    then deletes (chainCtx app r p) (Imagor.Storages app)
                           (p_Image (normalize app r p))
                    else []
        | None => []
        end).
Proof.
  intros (Hfetches & Hfetch & Hsrc) out.
  rewrite (proj1 (Do_trace app r p) Hfetches), Hfetch, Hsrc.
  by rewrite Do_process_run.
Qed.

(** What a request that does not reach the chain writes. *)
Lemma Do_stops app r p :
  (forall src saved, ~ reaches app r p src saved) ->
  trace (Imagor.Do app r p) = []
  \/ (fetches app r p /\ trace (Imagor.Do app r p) = trace (fetch app r p)).
Proof.
  intros Hnot. destruct (fetches_dec app r p) as [Hf|Hf].
  - right. split; [done|]. rewrite (proj1 (Do_trace app r p) Hf).
    destruct (value (fetch app r p)) as [[src saved] [e|]] eqn:Hv;
      [by rewrite app_nil_r|].
    destruct (isBlobEmpty src) eqn:Hsrc; [by rewrite app_nil_r|].
    by destruct (Hnot src saved).
  - left. by apply (Do_trace app r p).
Qed.

(** C3, as amended. For every request, the write to the result storages,
    keyed by the result key, is made at one place and nowhere else: after
    the processor chain of a request that reaches the chain, and there if
    and only if the chain ended with no error and result storages are
    configured. Such a request writes, in this order, what its source fetch
    writes, what the loads asked for by its processors write (both are
    save-backs to the source storages), the result, and the delete of a
    source saved back. The blob written is the one the chain ended with:
    the output of the processor that succeeded, or the current blob when no
    processor succeeded, which is the raw source blob when there is no
    processor or when every processor declined. A request that does not
    reach the chain writes nothing, or what its source fetch writes. *)
Theorem result_cache_write app r p :
  let p' := normalize app r p in
  let rk := resultKeyOf app p' in
  let pctx := chainCtx app r p in
  (forall src saved,
      reaches app r p src saved ->
      let out := value (chainRun app r p src) in
      let written :=
        match snd out with
        | None => puts (saveCtx app pctx) (Imagor.ResultStorages app) rk (fst out)
        | Some _ => []
        end in
      trace (Imagor.Do app r p)
      = trace (fetch app r p) ++ trace (chainRun app r p src) ++ written
        ++ (match snd out with
            | Some _ => if saved
                        then deletes pctx (Imagor.Storages app) (p_Image p')
                        else []
            | None => []
            end)
      /\ (written ≠ [] <-> snd out = None /\ Imagor.ResultStorages app ≠ [])
      /\ (Forall (declines pctx p' (loadOf app (requestOf app r)) src)
            (Imagor.Processors app) ->
          out = (src, None)))
  /\ ((forall src saved, ~ reaches app r p src saved) ->
      trace (Imagor.Do app r p) = []
      \/ trace (Imagor.Do app r p) = trace (fetch app r p))
  /\ Forall (savesSource app) (trace (fetch app r p))
  /\ (forall src, Forall (savesSource app) (trace (chainRun app r p src))).
Proof.
  intros p' rk pctx. split; [|split; [|split]].
  - intros src saved Hreach out written. split; [|split].
    + exact (Do_reaches app r p src saved Hreach).
    + subst written. destruct (snd out) eqn:Hout.
      * split; [done|]. by intros [? _].
      * rewrite puts_nil. split; [by intros Hw|by intros [_ ?]].
    + intros Hall. by apply process_loop_declined.
  - intros Hnot. destruct (Do_stops app r p Hnot) as [Ht|[_ Ht]]; [by left|by right].
  - apply loadStorage_saves.
  - intros src. apply process_loop_saves.
Qed.

(** C4, as amended. For every source fetch, the function literal of
    [loadStorage] saves the blob back to the source storages, keyed by the
    image key, if and only if the load returned a nil error, a non-empty
    blob and a nil origin and at least one source storage is configured.
    For a caller that runs the function literal and waits for it (its
    context carries the marker, or it leads and its context stays live)
    the flag [loadStorage] returns is true exactly then. A caller that
    leads and whose context fires first returns at once with a false flag,
    while the function literal goes on and saves back all the same; a
    caller that takes the result of a call in flight saves nothing and gets
    a false flag. When the chain of a request that reached it ends with an
    error, the request deletes the image key from every source storage if
    the flag of its fetch is true, and deletes nothing if it is false. *)
Theorem save_back app r key p :
  let ctx := rctx r in
  let skey := "img:" +:+ key in
  let c := fnCtx ctx skey in
  let loaded := Imagor.load app (WithContext r c) (Imagor.Storages app)
                  (Imagor.Loaders app) key false in
  let blob := fst (fst loaded) in
  let attempted :=
    snd loaded = None /\ isBlobEmpty blob = false /\ snd (fst loaded) = None
    /\ Imagor.Storages app ≠ [] in
  let saves := puts (saveCtx app c) (Imagor.Storages app) key blob in
  (invoked app ctx skey = true ->
   isAcquired ctx skey = true \/ ctx_err ctx = None ->
   (attempted -> Imagor.loadStorage app r key = ((blob, true, None), saves))
   /\ (~ attempted ->
       Imagor.loadStorage app r key = ((blob, false, snd loaded), [])))
  /\ (invoked app ctx skey = true -> isAcquired ctx skey = false ->
      forall e, ctx_err ctx = Some e ->
      (attempted -> Imagor.loadStorage app r key = ((None, false, Some e), saves))
      /\ (~ attempted ->
          Imagor.loadStorage app r key = ((None, false, Some e), [])))
  /\ (invoked app ctx skey = false ->
      exists res, Imagor.loadStorage app r key = ret (fst res, false, snd res))
  /\ (forall src saved e,
      reaches app r p src saved ->
      snd (value (chainRun app r p src)) = Some e ->
      trace (Imagor.Do app r p)
      = trace (fetch app r p) ++ trace (chainRun app r p src)
        ++ (if saved
            then deletes (chainCtx app r p) (Imagor.Storages app)
                   (p_Image (normalize app r p))
            else [])).
Proof.
  intros ctx skey c loaded blob attempted saves.
  destruct (loadStorage_run app r key) as (Hwait & Hfired & Hother).
  fold ctx skey c in Hwait, Hfired, Hother.
  split; [|split; [|split]].
  - intros Hinv Hwaits. rewrite (Hwait Hinv Hwaits).
    destruct (loadStorage_fn_cases app r key c)
      as [(He & Hb & Ho & Hs & Hrun)|(Hn & Hrun)].
    + fold loaded blob in He, Hb, Ho, Hrun |- *. rewrite Hrun. simpl.
      split; [intros _; by rewrite He|]. intros Hnot. by destruct Hnot.
    + fold loaded blob in Hn, Hrun |- *. rewrite Hrun. simpl.
      split; [intros Hatt; by destruct Hn|done].
  - intros Hinv Hm e He. rewrite (Hfired Hinv Hm e He).
    destruct (loadStorage_fn_cases app r key c)
      as [(He' & Hb & Ho & Hs & Hrun)|(Hn & Hrun)].
    + fold loaded blob in He', Hb, Ho, Hrun |- *. rewrite Hrun. simpl.
      split; [done|]. intros Hnot. by destruct Hnot.
    + fold loaded blob in Hn, Hrun |- *. rewrite Hrun. simpl.
      split; [intros Hatt; by destruct Hn|done].
  - exact Hother.
  - intros src saved e Hreach Hend.
    rewrite (Do_reaches app r p src saved Hreach). by rewrite Hend.
Qed.

(** X8. What a request writes. For every request, the trace of [Do] is, in
    this order: at most one save-back of a blob to the source storages,
    keyed by the image key of the normalized params; the save-backs of the
    images its processors ask for, all of them writes to the source
    storages; at most one write of a blob to the result storages, keyed by
    the result key; at most one delete of the image key on the source
    storages. The write to the result storages and the delete never both
    happen, and the delete happens only after a save-back of the source
    made by the same request. *)
Theorem Do_writes app r p :
  let p' := normalize app r p in
  let key := p_Image p' in
  let rk := resultKeyOf app p' in
  exists fetched asked written deleted,
    trace (Imagor.Do app r p) = fetched ++ asked ++ written ++ deleted
    /\ (fetched = [] \/ exists c b, fetched = puts c (Imagor.Storages app) key b)
    /\ Forall (savesSource app) asked
    /\ (written = []
        \/ exists c b, written = puts c (Imagor.ResultStorages app) rk b)
    /\ (deleted = [] \/ exists c, deleted = deletes c (Imagor.Storages app) key)
    /\ (written ≠ [] -> deleted = [])
    /\ (deleted ≠ [] -> fetched ≠ []).
Proof.
  intros p' key rk.
  assert (fetches app r p ->
          trace (fetch app r p) = []
          \/ exists c b, trace (fetch app r p) = puts c (Imagor.Storages app) key b)
    as Hfetched.
  { intros _. destruct (loadStorage_trace app (requestOf app r) key)
      as [Ht|(c & b & _ & Ht)]; [by left|right; by exists c, b]. }
  destruct (fetches_dec app r p) as [Hf|Hf].
  2: { exists [], [], [], []. rewrite (proj2 (Do_trace app r p) Hf).
       split; [done|]. split; [by left|]. split; [constructor|].
       split; [by left|]. split; [by left|]. by split. }
  destruct (value (fetch app r p)) as [[src saved] err] eqn:Hv.
  destruct (decide (err = None /\ isBlobEmpty src = false)) as [[-> Hsrc]|Hstop].
  - assert (reaches app r p src saved) as Hreach by (by split).
    rewrite (Do_reaches app r p src saved Hreach). fold p' key rk.
    eexists _, _, _, _. split; [reflexivity|].
    split; [by apply Hfetched|]. split; [apply process_loop_saves|].
    destruct (snd (value (chainRun app r p src))) as [e|].
    + split; [by left|]. split.
      * destruct saved; [right; by eexists|by left].
      * split; [done|]. destruct saved; [|done]. intros Hdel.
        pose proof (loadStorage_flag app (requestOf app r) key) as Hflag.
        unfold fetch in Hv. fold p' key in Hv. rewrite Hv in Hflag.
        destruct (Hflag eq_refl) as (c & b & Hs & Ht).
        unfold fetch. fold p' key. rewrite Ht. by rewrite puts_nil.
    + split; [right; by eexists _, _|]. split; [by left|]. by split.
  - exists (trace (fetch app r p)), [], [], [].
    rewrite (proj1 (Do_trace app r p) Hf), Hv.
    assert ((match err with
             | Some _ => []
             | None => if isBlobEmpty src then []
                       else trace (Imagor.Do_process app (normalize app r p)
                                     (resultKeyOf app (normalize app r p))
                                     (loadOf app (requestOf app r))
                                     (fnCtx (requestCtx app r)
                                        ("res:" +:+ resultKeyOf app (normalize app r p)))
                                     src saved)
             end) = @nil Event) as ->.
    { destruct err; [done|]. destruct (isBlobEmpty src) eqn:Hb; [done|].
      by destruct Hstop. }
    split; [done|]. split; [by apply Hfetched|]. split; [constructor|].
    split; [by left|]. split; [by left|]. by split.
Qed.

(** X9. The signature gate. [Do] turns a request down with
    [ErrSignatureMismatch], before anything is loaded or written, exactly
    when the gate fails; and the gate fails exactly when a signer is
    configured, the signature of the path as requested differs from the
    hash, and the engine and the request are not both unsafe: an unsafe
    request does not get past an engine that is not unsafe. *)
Theorem Do_gate app r p :
  (gateFails app p = true ->
   Imagor.Do app r p = ret (None, Some (EImagor ErrSignatureMismatch)))
  /\ (gateFails app p = true
      <-> (Imagor.Unsafe app = false \/ p_Unsafe p = false)
          /\ exists sign, Imagor.Signer app = Some sign
                          /\ sign (p_Path p) ≠ p_Hash p).
Proof.
  split.
  - intros Hg. rewrite Do_stages. by rewrite Hg.
  - unfold gateFails. split.
    + intros [Hu Hs]%andb_true_iff. split.
      * apply negb_true_iff, andb_false_iff in Hu. exact Hu.
      * destruct (Imagor.Signer app) as [sign|]; [|done].
        exists sign. split; [done|].
        by apply negb_true_iff, bool_decide_eq_false in Hs.
    + intros [Hu (sign & -> & Hs)]. apply andb_true_iff. split.
      * by apply negb_true_iff, andb_false_iff.
      * by apply negb_true_iff, bool_decide_eq_false.
Qed.

Lemma isAcquired_requestCtx app r key :
  isAcquired (requestCtx app r) key = isAcquired (rctx r) key.
Proof. unfold isAcquired. by rewrite requestCtx_held. Qed.

(** [Do] for a request that leads: the source fetch, then the end of the
    function literal. *)
Lemma Do_leading app r p :
  leads app r p ->
  let p' := normalize app r p in
  let rk := resultKeyOf app p' in
  let r' := requestOf app r in
  let fetch := Imagor.loadStorage_fn app r' (p_Image p')
                 (WithValue (requestCtx app r) ("img:" +:+ p_Image p')) in
  Imagor.Do app r p
  = bind fetch (fun rv =>
      match snd (fst rv) with
      | Some _ => ret (fst rv)
      | None =>
          if isBlobEmpty (fst (fst rv)) then ret (fst rv)
          else bind (Imagor.Do_process app p' rk (loadOf app r')
                       (WithValue (requestCtx app r) ("res:" +:+ rk))
                       (fst (fst rv)) (snd rv))
                    (fun out => ret (fst out))
      end).
Proof.
  intros (Hgate & Hprobe & Hsema & Hres & Himg & Hmres & Hmimg & Hlive) p' rk r' fetch.
  fold p' rk in Hprobe, Hsema, Hres, Himg, Hmres, Hmimg.
  rewrite Do_stages. fold p' rk r'. rewrite Hgate.
  assert ((if p_Meta p' then Imagor.loadResult app r' rk (p_Image p') true else None)
          = None) as ->.
  { destruct (p_Meta p'); [exact Hprobe|done]. }
  unfold Imagor.suppress at 1. rewrite isAcquired_requestCtx, Hmres.
  rewrite suppress_wait_live by exact Hlive.
  rewrite Hres. unfold Imagor.Do_fn.
  assert ((if negb (p_Meta p') then Imagor.loadResult app r' rk (p_Image p') false
           else None) = None) as ->.
  { destruct (p_Meta p'); [done|exact Hprobe]. }
  fold (acquired app (WithValue (requestCtx app r) ("res:" +:+ rk))). rewrite Hsema.
  unfold Imagor.loadStorage, Imagor.suppress.
  replace (rctx r') with (requestCtx app r) by (symmetry; apply requestOf_rctx).
  rewrite isAcquired_requestCtx, Hmimg.
  rewrite suppress_wait_live by exact Hlive.
  rewrite Himg. fold fetch.
  destruct fetch as [[[blob err] isSave] t]. simpl.
  destruct err as [e|]; simpl; [by rewrite !app_nil_r|].
  destruct (isBlobEmpty blob); simpl; [by rewrite !app_nil_r|].
  destruct (Imagor.Do_process _ _ _ _ _ _ _) as [[out u] t']. simpl.
  by rewrite !app_nil_r.
Qed.

(** X10. A failed source load ends the request. For a request that leads
    (its context, under the request timeout, stays live), when [load] on the
    source storages and loaders returns an error, [Do] returns the blob and
    the error of [load] as they are, runs no processor and writes
    nothing. *)
Theorem Do_load_failure app r p blob origin e :
  leads app r p ->
  sourceLoad app r p = (blob, origin, Some e) ->
  Imagor.Do app r p = ((blob, Some e), []).
Proof.
  intros Hleads Hload. rewrite (Do_leading app r p Hleads).
  destruct (loadStorage_fn_cases app (requestOf app r) (p_Image (normalize app r p))
              (WithValue (requestCtx app r) ("img:" +:+ p_Image (normalize app r p))))
    as [(He & _)|(_ & Hrun)]; unfold sourceLoad in Hload.
  - rewrite Hload in He. discriminate.
  - rewrite Hrun, Hload. reflexivity.
Qed.

(** X11. A request that leads (its context, under the request timeout,
    stays live) and whose source load succeeds with a non-empty blob gets
    what the processor chain ends with, started on that blob with no error;
    with no processor configured, it gets the source blob itself with a nil
    error. *)
Theorem Do_runs_chain app r p blob origin :
  leads app r p ->
  sourceLoad app r p = (blob, origin, None) ->
  isBlobEmpty blob = false ->
  let p' := normalize app r p in
  let pctx := processCtx app (WithValue (requestCtx app r)
                                ("res:" +:+ resultKeyOf app p')) in
  value (Imagor.Do app r p)
  = value (Imagor.process_loop pctx p' (loadOf app (requestOf app r))
             (Imagor.Processors app) blob None)
  /\ (Imagor.Processors app = [] -> value (Imagor.Do app r p) = (blob, None)).
Proof.
  intros Hleads Hload Hblob p' pctx.
  assert (value (Imagor.Do app r p)
          = value (Imagor.process_loop pctx p' (loadOf app (requestOf app r))
                     (Imagor.Processors app) blob None)) as Hvalue.
  { rewrite (Do_leading app r p Hleads). fold p'.
    destruct (loadStorage_fn_cases app (requestOf app r) (p_Image p')
                (WithValue (requestCtx app r) ("img:" +:+ p_Image p')))
      as [(_ & _ & _ & _ & Hrun)|(_ & Hrun)]; unfold sourceLoad in Hload;
      fold p' in Hload; rewrite Hrun, Hload; simpl; rewrite Hblob;
      rewrite Do_process_run; reflexivity. }
  split; [exact Hvalue|]. intros Hnone. rewrite Hvalue, Hnone. reflexivity.
Qed.

(** X22. A request whose context fires while [Do] waits gets the error of
    that context and no blob, whatever the handlers and the processors
    return: once it is past the signature gate and the metadata probe of the
    result cache, and does not hold the marker of its result key. The
    context [Do] waits on is the caller's under the request timeout: it
    fires with the caller's own error, and, under a caller that stays live,
    only with [DeadlineExceeded] and only when a request timeout is
    configured. *)
Theorem Do_context_fired app r p e :
  let p' := normalize app r p in
  let rk := resultKeyOf app p' in
  gateFails app p = false ->
  (if p_Meta p'
   then Imagor.loadResult app (requestOf app r) rk (p_Image p') true else None)
  = None ->
  isAcquired (rctx r) ("res:" +:+ rk) = false ->
  ctx_err (requestCtx app r) = Some e ->
  value (Imagor.Do app r p) = (None, Some e)
  /\ (ctx_err (rctx r) = None ->
      e = DeadlineExceeded /\ 0 < Imagor.RequestTimeout app)
  /\ (forall e', ctx_err (rctx r) = Some e' -> e = e').
Proof.
  intros p' rk Hgate Hmeta Hm Hfired. split; [|split].
  - rewrite Do_stages. fold p' rk. rewrite Hgate, Hmeta, value_bind.
    unfold Imagor.suppress. rewrite isAcquired_requestCtx, Hm.
    simpl. by rewrite (proj1 (suppress_wait_fired _ tt _ _ _ e Hfired)).
  - intros Hlive. by apply (requestCtx_deadline app r).
  - intros e' He'. rewrite (requestCtx_err app r e' He') in Hfired. congruence.
Qed.

(** *** Rendering, continued *)

(** Every branch of a handler, one after the other. *)
Ltac branches :=
  repeat match goal with
         | |- context [value (bind _ _)] => rewrite value_bind
         | |- context [let '(_, _) := ?x in _] => destruct x as [? ?] eqn:?
         | |- context [if ?c then _ else _] => destruct c eqn:?; simpl
         | |- context [match ?x with _ => _ end] => destruct x eqn:?; simpl
         end.

(** X12. A HEAD request is never answered with a body: whatever the engine,
    the path and the outcome of [Do], the handler writes the status and the
    headers only. *)
Theorem HEAD_has_no_body app r :
  Method r = "HEAD" ->
  body (value (Imagor.ServeHTTP app r)) = NoBody
  \/ body (value (Imagor.ServeHTTP app r)) = Aborted.
Proof.
  intros Hm. unfold Imagor.ServeHTTP, Imagor.writeJSON, Imagor.writeBody,
    Imagor.unlessHead. rewrite Hm. simpl.
  branches; auto.
Qed.


(** X14. With the error body disabled, no response carries an error as its
    body: whatever [Do] returns, the handler never writes the JSON of an
    error. *)
Theorem no_error_body_when_disabled app r e :
  Imagor.DisableErrorBody app = true ->
  body (value (Imagor.ServeHTTP app r)) ≠ ErrorJSON e.
Proof.
  intros Hd. unfold Imagor.ServeHTTP, Imagor.writeJSON, Imagor.writeBody,
    Imagor.unlessHead. rewrite Hd.
  branches; discriminate.
Qed.

(** *** Startup and Shutdown *)

Lemma Startup_all ctx processors :
  Forall (fun q => Imagor.lc_Startup q ctx = None) processors ->
  Imagor.Startup ctx processors
  = (None, map (fun q => Imagor.Started (Imagor.lc_name q)) processors).
Proof.
  induction 1 as [|q rest Hq _ IH]; simpl; [done|]. by rewrite Hq, IH.
Qed.

Lemma Shutdown_all ctx processors :
  Forall (fun q => Imagor.lc_Shutdown q ctx = None) processors ->
  Imagor.Shutdown ctx processors
  = (None, map (fun q => Imagor.Stopped (Imagor.lc_name q)) processors).
Proof.
  induction 1 as [|q rest Hq _ IH]; simpl; [done|]. by rewrite Hq, IH.
Qed.

(** X15. [Startup] starts the processors in order and stops at the first one
    that fails: it returns that error, and the processors after it are never
    started; it returns nil exactly when every processor started. [Shutdown]
    does the same: a processor that fails to shut down leaves every
    processor after it running. *)
Theorem lifecycle_stops_at_first_error ctx pre q post e :
  (Forall (fun q' => Imagor.lc_Startup q' ctx = None) pre ->
   Imagor.lc_Startup q ctx = Some e ->
   Imagor.Startup ctx (pre ++ q :: post)
   = (Some e, map (fun q' => Imagor.Started (Imagor.lc_name q')) (pre ++ [q])))
  /\ (Forall (fun q' => Imagor.lc_Shutdown q' ctx = None) pre ->
      Imagor.lc_Shutdown q ctx = Some e ->
      Imagor.Shutdown ctx (pre ++ q :: post)
      = (Some e, map (fun q' => Imagor.Stopped (Imagor.lc_name q')) (pre ++ [q])))
  /\ (forall processors,
      value (Imagor.Startup ctx processors) = None
      <-> Forall (fun q' => Imagor.lc_Startup q' ctx = None) processors)
  /\ (forall processors,
      value (Imagor.Shutdown ctx processors) = None
      <-> Forall (fun q' => Imagor.lc_Shutdown q' ctx = None) processors).
Proof.
  split; [|split; [|split]].
  - intros Hpre Hq. induction Hpre as [|q' rest Hq' _ IH]; simpl.
    + by rewrite Hq.
    + by rewrite Hq', IH.
  - intros Hpre Hq. induction Hpre as [|q' rest Hq' _ IH]; simpl.
    + by rewrite Hq.
    + by rewrite Hq', IH.
  - intros processors. split.
    + induction processors as [|q' rest IH]; simpl; [by constructor|].
      destruct (Imagor.lc_Startup q' ctx) eqn:Hq'; [done|].
      intros Hv. constructor; [done|]. apply IH.
      by destruct (Imagor.Startup ctx rest).
    + intros Hall. by rewrite Startup_all.
  - intros processors. split.
    + induction processors as [|q' rest IH]; simpl; [by constructor|].
      destruct (Imagor.lc_Shutdown q' ctx) eqn:Hq'; [done|].
      intros Hv. constructor; [done|]. apply IH.
      by destruct (Imagor.Shutdown ctx rest).
    + intros Hall. by rewrite Shutdown_all.
Qed.

(** *** The earlier engine, continued *)

(** X16. Whatever the options, the engine [New] builds has a load timeout
    that does not exceed its request timeout, and that is zero only when the
    request timeout is zero; with a positive request timeout and a
    non-negative load timeout configured, the load timeout it ends with is
    positive. [New] changes no other field the options set. *)
Theorem New_load_timeout (options : list Legacy.Option) :
  let configured :=
    fold_left (fun app option => option app) options (Legacy.New []) in
  let app := Legacy.New options in
  Legacy.LoadTimeout app <= Legacy.RequestTimeout app
  /\ (Legacy.LoadTimeout app = 0 -> Legacy.RequestTimeout app = 0)
  /\ (0 < Legacy.RequestTimeout configured -> 0 <= Legacy.LoadTimeout configured ->
      0 < Legacy.LoadTimeout app)
  /\ Legacy.RequestTimeout app = Legacy.RequestTimeout configured
  /\ Legacy.SaveTimeout app = Legacy.SaveTimeout configured
  /\ Legacy.CacheHeaderTTL app = Legacy.CacheHeaderTTL configured
  /\ Legacy.Loaders app = Legacy.Loaders configured
  /\ Legacy.Storages app = Legacy.Storages configured
  /\ Legacy.Processors app = Legacy.Processors configured
  /\ Legacy.Unsafe app = Legacy.Unsafe configured
  /\ Legacy.Secret app = Legacy.Secret configured
  /\ Legacy.Version app = Legacy.Version configured.
Proof.
  intros configured app. subst app.
  generalize (eq_refl (Legacy.New options)).
  unfold Legacy.New at 2. change (fold_left _ options _) with configured.
  generalize (Legacy.New options) as app. intros app ->.
  destruct ((Legacy.RequestTimeout configured <? Legacy.LoadTimeout configured)
            || (Legacy.LoadTimeout configured =? 0)) eqn:Hc; simpl.
  - repeat split; try done; lia.
  - apply orb_false_iff in Hc as [Hlt Hz].
    apply Z.ltb_ge in Hlt. apply Z.eqb_neq in Hz.
    repeat split; try done; lia.
Qed.

Lemma legacy_load_loop_served loadReq image pre l post file err :
  Forall (fun l' => snd (Legacy.l_Load l' loadReq image) ≠ None) pre ->
  snd (Legacy.l_Load l loadReq image) = None ->
  Legacy.load_loop loadReq image (pre ++ l :: post) file err
  = (legacy_latest loadReq image (pre ++ [l]) file, None, Legacy.l_store l).
Proof.
  intros Hpre Hl. revert file err.
  induction Hpre as [|l' rest Hl' _ IH]; intros file err; simpl.
  - destruct (Legacy.l_Load l loadReq image) as [f e]; simpl in *. by subst e.
  - destruct (Legacy.l_Load l' loadReq image) as [f [e|]]; simpl in *; [|done].
    apply IH.
Qed.

(** X17. The earlier [load], with no call in flight for the image and a
    positive save timeout (with none, [save] defers a nil [cancel]), stops at
    the first loader that returns a nil error and consults none after it.
    It returns the most recent non-empty file seen up to that loader and a
    nil error. When that file is not empty it is saved once to every
    storage except the store it was loaded from, in order, under the
    request's own context with the save timeout (not the load timeout); an
    empty file is saved nowhere. *)
Theorem legacy_load_saves (app : Legacy.Imagor) (r : Request) image pre l post :
  0 < Legacy.SaveTimeout app ->
  Legacy.g app !! image = None ->
  Legacy.Loaders app = pre ++ l :: post ->
  Forall (fun l' =>
            snd (Legacy.l_Load l' (legacyLoadRequest app r) image) ≠ None) pre ->
  snd (Legacy.l_Load l (legacyLoadRequest app r) image) = None ->
  let file := legacy_latest (legacyLoadRequest app r) image (pre ++ [l]) None in
  value (Legacy.load app r image) = (file, None)
  /\ trace (Legacy.load app r image)
     = (if Legacy.IsFileEmpty file then []
        else map (fun storage =>
                    Legacy.EvSave (Legacy.s_name storage)
                      (WithTimeout (rctx r) (Legacy.SaveTimeout app)) image file)
               (filter (fun storage =>
                          Some (Legacy.s_name storage) ≠ Legacy.l_store l)
                  (Legacy.Storages app)))
  /\ (forall ev, ev ∈ trace (Legacy.load app r image) ->
      Some (saved_to ev) ≠ Legacy.l_store l
      /\ exists storage, storage ∈ Legacy.Storages app
                         /\ saved_to ev = Legacy.s_name storage).
Proof.
  intros Hsave Hg Hl Hpre Hok file. apply Z.ltb_lt in Hsave.
  assert (Legacy.load app r image
          = (file, None,
             if Legacy.IsFileEmpty file then []
             else map (fun storage =>
                         Legacy.EvSave (Legacy.s_name storage)
                           (WithTimeout (rctx r) (Legacy.SaveTimeout app)) image file)
                    (filter (fun storage =>
                               Some (Legacy.s_name storage) ≠ Legacy.l_store l)
                       (Legacy.Storages app)))) as Heq.
  { unfold Legacy.load, Legacy.suppress. rewrite Hg, Hl.
    match goal with
    | |- context [Legacy.load_loop ?rq _ _ _ _] =>
        replace rq with (legacyLoadRequest app r)
          by (unfold legacyLoadRequest; by destruct (0 <? Legacy.LoadTimeout app))
    end.
    rewrite legacy_load_loop_served by done. fold file.
    destruct (Legacy.IsFileEmpty file); [done|].
    destruct (Legacy.Storages app) as [|s ss] eqn:Hs; [done|].
    unfold Legacy.save, bind, ret. rewrite Hsave. simpl.
    by rewrite app_nil_r. }
  rewrite Heq. split; [done|]. split; [done|].
  intros ev Hev. simpl in Hev.
  destruct (Legacy.IsFileEmpty file); [by apply elem_of_nil in Hev|].
  apply list_elem_of_fmap in Hev as (storage & -> & Hin).
  apply list_elem_of_filter in Hin as [Hne Hin]. simpl.
  split; [done|]. by exists storage.
Qed.

(** *** Result keys and cache headers *)

Lemma prefix_append pre s : String.prefix pre (pre +:+ s) = true.
Proof.
  induction pre as [|a pre IH]; simpl; [by destruct s|].
  by destruct (Ascii.ascii_dec a a).
Qed.

Lemma prefix_refl s : String.prefix s s = true.
Proof.
  induction s as [|a s IH]; simpl; [done|]. by destruct (Ascii.ascii_dec a a).
Qed.

Lemma substring_all s : String.substring 0 (String.length s) s = s.
Proof. induction s as [|a s IH]; simpl; [done|]. by rewrite IH. Qed.

Lemma substring_append pre s :
  String.substring (String.length pre)
    (String.length (pre +:+ s) - String.length pre) (pre +:+ s) = s.
Proof.
  induction pre as [|a pre IH]; simpl.
  - rewrite Nat.sub_0_r. apply substring_all.
  - apply IH.
Qed.

Lemma TrimPrefix_append pre s : TrimPrefix (pre +:+ s) pre = s.
Proof.
  unfold TrimPrefix. rewrite prefix_append. apply substring_append.
Qed.

(** X18. Without a result-key generator the key of the result cache is the
    path with one leading [meta/] taken off, and the path itself when it
    does not start with [meta/]: the metadata request for an image and the
    request for the image itself work under the same result key. *)
Theorem result_key_strips_meta (app : Imagor.Imagor) :
  Imagor.ResultKey app = None ->
  (forall p x, p_Path p = "meta/" +:+ x -> resultKeyOf app p = x)
  /\ (forall p, String.prefix "meta/" (p_Path p) = false ->
      resultKeyOf app p = p_Path p)
  /\ (forall p q, p_Path p = "meta/" +:+ p_Path q ->
      String.prefix "meta/" (p_Path q) = false ->
      resultKeyOf app p = resultKeyOf app q).
Proof.
  intros Hk. unfold resultKeyOf. rewrite Hk.
  split; [|split].
  - intros p x ->. apply TrimPrefix_append.
  - intros p Hp. unfold TrimPrefix. by rewrite Hp.
  - intros p q -> Hq. rewrite TrimPrefix_append. unfold TrimPrefix. by rewrite Hq.
Qed.

Lemma prefix_chars sub s c :
  String.prefix sub s = true ->
  In c (String.list_ascii_of_string sub) -> In c (String.list_ascii_of_string s).
Proof.
  revert s. induction sub as [|a sub IH]; intros s Hp Hc; [done|].
  destruct s as [|b s]; simpl in Hp; [done|].
  destruct (Ascii.ascii_dec a b) as [->|]; [|done].
  simpl in *. destruct Hc as [->|Hc]; [by left|]. right. by apply IH.
Qed.

Lemma Contains_chars s sub c :
  Contains s sub = true ->
  In c (String.list_ascii_of_string sub) -> In c (String.list_ascii_of_string s).
Proof.
  induction s as [|a s IH]; intros Hc Hin.
  - by destruct sub.
  - cbn [Contains] in Hc.
    destruct (String.prefix sub (String a s)) eqn:Hp.
    + by apply (prefix_chars sub).
    + right. by apply IH.
Qed.

Lemma Contains_append_r a b sub :
  Contains b sub = true -> Contains (a +:+ b) sub = true.
Proof.
  intros Hb. induction a as [|c a IH]; [done|].
  change (String c a +:+ b) with (String c (a +:+ b)). cbn [Contains].
  rewrite IH. by destruct (String.prefix sub (String c (a +:+ b))).
Qed.

Lemma chars_append a b c :
  In c (String.list_ascii_of_string (a +:+ b))
  <-> In c (String.list_ascii_of_string a) \/ In c (String.list_ascii_of_string b).
Proof.
  induction a as [|x a IH]; simpl; [tauto|]. rewrite IH. tauto.
Qed.

Lemma pretty_N_go_chars (c : Ascii.ascii) (n : N) : forall s,
  (forall d, c ≠ pretty_N_char d) ->
  In c (String.list_ascii_of_string (pretty_N_go n s)) ->
  In c (String.list_ascii_of_string s).
Proof.
  induction (N.lt_wf_0 n) as [n _ IH]. intros s Hd Hin.
  destruct (decide (n = 0%N)) as [->|Hn].
  - by rewrite pretty_N_go_0 in Hin.
  - rewrite pretty_N_go_step in Hin by lia.
    apply IH in Hin; [|apply N.div_lt; lia|done].
    simpl in Hin. destruct Hin as [Heq|Hin]; [|done].
    by destruct (Hd (n mod 10)%N).
Qed.

Lemma pretty_Z_chars (c : Ascii.ascii) (z : Z) :
  In c (String.list_ascii_of_string "w") ->
  ~ In c (String.list_ascii_of_string (pretty z)).
Proof.
  intros [<-|[]].
  assert (forall d, Ascii.Ascii true true true false true true true false
                    ≠ pretty_N_char d) as Hd.
  { intros d. unfold pretty_N_char. by repeat case_match. }
  intros Hin. destruct z as [|x|x]; simpl in Hin.
  - by destruct Hin as [Heq|[]].
  - by apply pretty_N_go_chars in Hin.
  - destruct Hin as [Heq|Hin]; [done|]. by apply pretty_N_go_chars in Hin.
Qed.

(** X19. [getCacheControl] answers the no-cache directive list exactly when
    the TTL is zero. For any other TTL the value starts with the public
    directives, carrying the TTL in seconds twice, and it holds a
    [stale-while-revalidate] directive exactly when the window is positive
    and shorter than the TTL. *)
Theorem getCacheControl_directives `{Durations} (ttl swr : Z) :
  (Imagor.getCacheControl ttl swr
   = "private, no-cache, no-store, must-revalidate" <-> ttl = 0)
  /\ (ttl ≠ 0 ->
      String.prefix
        ("public, s-maxage=" +:+ pretty (Seconds ttl) +:+ ", max-age="
         +:+ pretty (Seconds ttl) +:+ ", no-transform")
        (Imagor.getCacheControl ttl swr) = true)
  /\ (Contains (Imagor.getCacheControl ttl swr) "stale-while-revalidate" = true
      <-> ttl ≠ 0 /\ 0 < swr < ttl).
Proof.
  unfold Imagor.getCacheControl.
  destruct (ttl =? 0) eqn:Httl.
  - apply Z.eqb_eq in Httl. split; [done|]. split; [done|].
    split; [done|]. by intros [? _].
  - apply Z.eqb_neq in Httl. cbv zeta. split; [split; [|done]|split].
    + destruct ((0 <? swr) && (swr <? ttl)); simpl; discriminate.
    + intros _. destruct ((0 <? swr) && (swr <? ttl)).
      * apply prefix_append.
      * apply prefix_refl.
    + destruct ((0 <? swr) && (swr <? ttl)) eqn:Hswr.
      * apply andb_true_iff in Hswr as [?%Z.ltb_lt ?%Z.ltb_lt].
        split; [intros _; split; [done|lia]|intros _].
        by apply Contains_append_r.
      * split.
        -- intros Hc. exfalso.
           eapply (Contains_chars _ _ (Ascii.Ascii true true true false true true true false)) in Hc;
             [|simpl; tauto].
           repeat (apply chars_append in Hc as [Hc|Hc]);
             try (by eapply pretty_Z_chars; [|exact Hc]; left);
             simpl in Hc; intuition discriminate.
        -- intros [_ [?%Z.ltb_lt ?%Z.ltb_lt]].
           apply andb_false_iff in Hswr as [Hswr|Hswr]; congruence.
Qed.
(** *** The earlier handler, end to end *)

(** X20. The earlier handler turns down a request whose path is neither
    unsafe-and-allowed nor signed with the secret: [Do] returns
    [ErrSignatureMismatch] with no file, no loader is asked and nothing is
    saved, and the response is status 403 with the error as JSON and no
    cache headers. *)
Theorem legacy_signature_gate (app : Legacy.Imagor) (r : Request) :
  let p := Legacy.Parse (EscapedPath r) in
  EscapedPath r ≠ "/" ->
  p_Params p = false ->
  Legacy.Unsafe app && p_Unsafe p = false ->
  Legacy.Sign (p_Path p) (Legacy.Secret app) ≠ p_Hash p ->
  Legacy.IsFileEmpty None = true ->
  Legacy.WrapError (EImagor ErrSignatureMismatch) = EImagor ErrSignatureMismatch ->
  Legacy.Do app r p = ret (None, None, Some (EImagor ErrSignatureMismatch))
  /\ Legacy.ServeHTTP app r
     = ret (Legacy.resJSON 403 (ErrorJSON ErrSignatureMismatch)).
Proof.
  intros p Hpath Hparams Hunsafe Hsign Hnil Hwrap.
  assert (Legacy.Do app r p
          = ret (None, None, Some (EImagor ErrSignatureMismatch))) as HDo.
  { unfold Legacy.Do. rewrite Hunsafe.
    by rewrite bool_decide_eq_false_2 by done. }
  split; [done|].
  unfold Legacy.ServeHTTP. rewrite bool_decide_eq_false_2 by done.
  fold p. rewrite Hparams, HDo. unfold bind, ret. simpl.
  rewrite Hnil, Hwrap. simpl. by destruct (p_Meta p).
Qed.

(** X21. The earlier handler serves what the loaders give: for a request
    that passes the signature gate, with no call in flight, no processor
    and a positive save timeout, when the first loader to return a nil
    error leaves a non-empty file, the response is status 200 with the
    bytes of that file, the content type detected from them, and the cache
    headers of the configured TTL; the file is saved to every storage but
    the store it came from, under the request context with the save
    timeout. *)
Theorem legacy_serves_loaded (app : Legacy.Imagor) (r : Request) pre l post f :
  let p := Legacy.Parse (EscapedPath r) in
  let rq := legacyLoadRequest app (legacyRequestOf app r) in
  EscapedPath r ≠ "/" ->
  p_Params p = false ->
  Legacy.Unsafe app && p_Unsafe p = true
  \/ Legacy.Sign (p_Path p) (Legacy.Secret app) = p_Hash p ->
  0 < Legacy.SaveTimeout app ->
  Legacy.g app !! p_Image p = None ->
  Legacy.Loaders app = pre ++ l :: post ->
  Forall (fun l' => snd (Legacy.l_Load l' rq (p_Image p)) ≠ None) pre ->
  snd (Legacy.l_Load l rq (p_Image p)) = None ->
  legacy_latest rq (p_Image p) (pre ++ [l]) None = Some f ->
  Legacy.IsFileEmpty (Some f) = false ->
  Legacy.Processors app = [] ->
  value (Legacy.ServeHTTP app r)
  = mkResponse 200
      (if (0 <? String.length (Legacy.file_Bytes f))%nat
       then Some (Legacy.DetectContentType (Legacy.file_Bytes f)) else None)
      None (Some (Legacy.CacheHeaderTTL app, 0))
      (Bytes (Legacy.file_Bytes f))
  /\ trace (Legacy.ServeHTTP app r)
     = map (fun storage =>
              Legacy.EvSave (Legacy.s_name storage)
                (WithTimeout (rctx (legacyRequestOf app r)) (Legacy.SaveTimeout app))
                (p_Image p) (Some f))
         (filter (fun storage => Some (Legacy.s_name storage) ≠ Legacy.l_store l)
            (Legacy.Storages app)).
Proof.
  intros p rq Hpath Hparams Hgate Hsave Hg Hl Hpre Hok Hfile Hne Hproc.
  destruct (legacy_load_saves app (legacyRequestOf app r) (p_Image p) pre l post
              Hsave Hg Hl Hpre Hok) as (Hv & Ht & _).
  fold rq in Hv, Ht. rewrite Hfile in Hv, Ht. rewrite Hne in Ht.
  unfold Legacy.ServeHTTP. rewrite bool_decide_eq_false_2 by done.
  fold p. rewrite Hparams. unfold Legacy.Do.
  replace (negb (Legacy.Unsafe app && p_Unsafe p)
           && negb (bool_decide
                      (Legacy.Sign (p_Path p) (Legacy.Secret app) = p_Hash p)))
    with false
    by (destruct Hgate as [->| ->]; [done|];
        rewrite bool_decide_eq_true_2 by done; by rewrite andb_false_r).
  match goal with
  | |- context [Legacy.load app ?r' (p_Image p)] =>
      replace r' with (legacyRequestOf app r)
        by (unfold legacyRequestOf; by destruct (0 <? Legacy.RequestTimeout app))
  end.
  destruct (Legacy.load app (legacyRequestOf app r) (p_Image p)) as [fe t] eqn:Hload.
  simpl in Hv, Ht. subst fe t.
  unfold bind, ret, value, trace. simpl. rewrite Hne, Hproc. simpl.
  rewrite Hne. rewrite !app_nil_r. split; [|done].
  by destruct (p_Meta p).
Qed.

End Properties.

(** ** The properties on sample configurations *)

Section Checks.
#[local] Existing Instance Sample.external.
#[local] Existing Instance Sample.errorsGo.
#[local] Existing Instance Sample.legacy.
Import Sample.

(** *** Scenarios *)

(** An unsigned path on an engine that checks signatures: 403, with the error
    as body. *)
Example signature_mismatch :
  Imagor.ServeHTTP (signed [only "foo.jpg" "bar"]) (get "/foo.jpg")
  = (mkResponse 403 (Some "application/json") None None
       (ErrorJSON ErrSignatureMismatch), []).
Proof. vm_compute. reflexivity. Qed.

(** An unsafe path served by a loader: 200, the bytes of the loader, the
    cache headers. *)
Example served_by_loader :
  Imagor.ServeHTTP (engine [only "foo.jpg" "bar"] [] [] []) (get "/unsafe/foo.jpg")
  = (mkResponse 200 (Some "image/jpeg") None (Some (604800, 86400)) (Bytes "bar"),
     []).
Proof. vm_compute. reflexivity. Qed.

(** A processor that runs into the deadline, after a source that was saved
    back: the error is returned with the source blob, nothing is written to
    the result storage, and the source is deleted from the source storage. *)
Example deadline_deletes_source :
  Imagor.Do (engine [only "foo.jpg" "bar"] [store] [results] [broken DeadlineExceeded])
            (get "/unsafe/foo.jpg") (Parse "/unsafe/foo.jpg")
  = ((Some (jpeg "bar"), Some DeadlineExceeded),
     [EvPut "store" (WithValue background "img:foo.jpg") "foo.jpg" (Some (jpeg "bar"));
      EvDelete "store" (WithValue background "res:foo.jpg") "foo.jpg"]).
Proof. vm_compute. reflexivity. Qed.

(** A request that outlives the request timeout: 408, with the timeout
    error as body, while the fetch it started still saves the source
    back. *)
Example request_timeout :
  Imagor.ServeHTTP (within backed 30) waiting
  = (mkResponse 408 (Some "application/json") None None (ErrorJSON ErrTimeout),
     [EvPut "store" (WithValue (WithTimeout slow 30) "img:foo.jpg")
        "foo.jpg" (Some (jpeg "bar"))]).
Proof. vm_compute. reflexivity. Qed.

(** *** The claims on sample inputs *)

(** Two storages that both hand back a blob together with an error: [load]
    returns the blob of the second one, not the first non-empty blob it
    saw. *)
Lemma load_first_blob_replaced :
  first_nonempty (handlers bare (get "/unsafe/k") [stale; partial] [] "k")
  = Some (jpeg "stale")
  /\ Imagor.load bare (get "/unsafe/k") [stale; partial] [] "k" false
     = (Some (jpeg "partial"), None, Some (Plain "short read")).
Proof. split; reflexivity. Qed.

Lemma load_bytes_tentative_witness :
  "k" ≠ ""
  /\ fst (Imagor.load bare (get "/unsafe/k") [stale; partial] [] "k" false)
     = (latest_nonempty (handlers bare (get "/unsafe/k") [stale; partial] [] "k") None,
        None)
  /\ Imagor.load bare (get "/unsafe/k") [stale; partial] [] "" false
     = (None, None, Some (EImagor ErrNotFound)).
Proof.
  assert ("k" ≠ "") as Hkey by discriminate.
  split; [exact Hkey|].
  pose proof (load_bytes_tentative bare (get "/unsafe/k") [stale; partial] [] "k")
    as Hfull.
  pose proof (load_bytes_tentative bare (get "/unsafe/k") [stale; partial] [] "")
    as Hempty.
  cbv zeta in Hfull, Hempty.
  destruct Hfull as (_ & Hfull). destruct (Hfull Hkey) as (_ & Hlatest & _).
  destruct Hempty as (Hempty & _).
  split; [apply Hlatest; repeat constructor|exact (Hempty eq_refl)].
Defined.

(** A storage that answers with no blob and no error: the error of the last
    handler consulted is nil, and [load] returns [ErrNotFound]. *)
Lemma load_err_not_of_last_handler :
  latest_err (consulted (handlers bare (get "/unsafe/k") [silent] [] "k")) None = None
  /\ snd (Imagor.load bare (get "/unsafe/k") [silent] [] "k" false)
     = Some (EImagor ErrNotFound).
Proof. split; reflexivity. Qed.

Lemma load_err_last_consulted_witness :
  "k" ≠ ""
  /\ Imagor.load bare (get "/unsafe/k") [stale] [silentLoader] "k" false
     = (latest_nonempty (handlers bare (get "/unsafe/k") [stale] [silentLoader] "k") None,
        None, None).
Proof.
  assert ("k" ≠ "") as Hkey by discriminate.
  split; [exact Hkey|].
  destruct (load_err_last_consulted bare (get "/unsafe/k") [stale] [silentLoader] "k" Hkey)
    as (_ & Hcleared).
  apply Hcleared; [repeat constructor|reflexivity|reflexivity].
Defined.



(** The fifth scenario: the first processor passes an alternative blob on,
    the second one receives it and succeeds. *)
Lemma process_loop_chain_witness :
  chain background (Parse "/unsafe/foo") noLoad
        [passing; echo] (Some (jpeg "source")) None
        (Some (jpeg "alternative"), None).
Proof.
  apply (process_loop_chain background (Parse "/unsafe/foo") noLoad
           [passing; echo] (Some (jpeg "source")) None).
  reflexivity.
Defined.

(** An engine with a loader, a result storage and no processor: the bytes of
    the source, as the loader gave them, are written to the result
    storage. *)
Lemma raw_source_cached :
  Imagor.Processors cached = []
  /\ value (Imagor.loadStorage cached (get "/unsafe/foo.jpg") "foo.jpg")
     = (Some (jpeg "bar"), false, None)
  /\ Imagor.Do cached (get "/unsafe/foo.jpg") (Parse "/unsafe/foo.jpg")
     = ((Some (jpeg "bar"), None),
        [EvPut "results" (WithValue background "res:foo.jpg") "foo.jpg"
               (Some (jpeg "bar"))]).
Proof. repeat split; vm_compute; reflexivity. Qed.

(** A processor that loads a mask, on an engine with a source storage and a
    result storage: the request saves the source back, then the mask, then
    writes the result. A processor that declines: the source blob is what
    the chain ends with, and what is written to the result storage. *)
Lemma result_cache_write_witness :
  reaches layered (get "/unsafe/foo.jpg") (Parse "/unsafe/foo.jpg")
    (Some (jpeg "bar")) true
  /\ trace (Imagor.Do layered (get "/unsafe/foo.jpg") (Parse "/unsafe/foo.jpg"))
     = [EvPut "store" (WithValue background "img:foo.jpg") "foo.jpg"
          (Some (jpeg "bar"));
        EvPut "store" (WithValue background "img:mask.jpg") "mask.jpg"
          (Some (jpeg "mask"));
        EvPut "results" (WithValue background "res:foo.jpg") "foo.jpg"
          (Some (jpeg "bar"))]
  /\ reaches refused (get "/unsafe/foo.jpg") (Parse "/unsafe/foo.jpg")
       (Some (jpeg "bar")) true
  /\ value (chainRun refused (get "/unsafe/foo.jpg") (Parse "/unsafe/foo.jpg")
              (Some (jpeg "bar")))
     = (Some (jpeg "bar"), None)
  /\ trace (Imagor.Do refused (get "/unsafe/foo.jpg") (Parse "/unsafe/foo.jpg"))
     = [EvPut "store" (WithValue background "img:foo.jpg") "foo.jpg"
          (Some (jpeg "bar"));
        EvPut "results" (WithValue background "res:foo.jpg") "foo.jpg"
          (Some (jpeg "bar"))].
Proof.
  assert (reaches layered (get "/unsafe/foo.jpg") (Parse "/unsafe/foo.jpg")
            (Some (jpeg "bar")) true) as Hlayered.
  { unfold reaches, fetches. cbv zeta. repeat apply conj; vm_compute; reflexivity. }
  assert (reaches refused (get "/unsafe/foo.jpg") (Parse "/unsafe/foo.jpg")
            (Some (jpeg "bar")) true) as Hrefused.
  { unfold reaches, fetches. cbv zeta. repeat apply conj; vm_compute; reflexivity. }
  pose proof (result_cache_write layered (get "/unsafe/foo.jpg")
                (Parse "/unsafe/foo.jpg")) as Hone.
  pose proof (result_cache_write refused (get "/unsafe/foo.jpg")
                (Parse "/unsafe/foo.jpg")) as Htwo.
  cbv zeta in Hone, Htwo.
  destruct Hone as (Hone & _). destruct Htwo as (Htwo & _).
  destruct (Hone _ _ Hlayered) as (Hwrites & _).
  destruct (Htwo _ _ Hrefused) as (Hraw & _ & Hdeclined).
  split; [exact Hlayered|]. split; [rewrite Hwrites; vm_compute; reflexivity|].
  split; [exact Hrefused|].
  split; [apply Hdeclined; repeat constructor; eexists; split; vm_compute; reflexivity|].
  rewrite Hraw. vm_compute. reflexivity.
Defined.

(** A caller who has gone away before its fetch is over: the fetch saves
    the source back, and the flag the caller gets is false. *)
Lemma save_back_unreported :
  ctx_err (rctx left) = Some Canceled
  /\ Imagor.loadStorage backed left "foo.jpg"
     = ((None, false, Some Canceled),
        [EvPut "store" (WithValue canceled "img:foo.jpg") "foo.jpg"
           (Some (jpeg "bar"))]).
Proof. split; vm_compute; reflexivity. Qed.

(** A fetch served by a loader, with a source storage: the blob is saved
    back and the flag is true. A processor that then runs into the
    deadline: the source is deleted from the source storage. *)
Lemma save_back_witness :
  Imagor.Storages backed ≠ []
  /\ Imagor.loadStorage backed (get "/unsafe/foo.jpg") "foo.jpg"
     = ((Some (jpeg "bar"), true, None),
        [EvPut "store" (WithValue background "img:foo.jpg") "foo.jpg"
           (Some (jpeg "bar"))])
  /\ reaches late (get "/unsafe/foo.jpg") (Parse "/unsafe/foo.jpg")
       (Some (jpeg "bar")) true
  /\ trace (Imagor.Do late (get "/unsafe/foo.jpg") (Parse "/unsafe/foo.jpg"))
     = [EvPut "store" (WithValue background "img:foo.jpg") "foo.jpg"
          (Some (jpeg "bar"));
        EvDelete "store" (WithValue background "res:foo.jpg") "foo.jpg"].
Proof.
  assert (Imagor.Storages backed ≠ []) as Hs by discriminate.
  assert (reaches late (get "/unsafe/foo.jpg") (Parse "/unsafe/foo.jpg")
            (Some (jpeg "bar")) true) as Hlate.
  { unfold reaches, fetches. cbv zeta. repeat apply conj; vm_compute; reflexivity. }
  pose proof (save_back backed (get "/unsafe/foo.jpg") "foo.jpg"
                (Parse "/unsafe/foo.jpg")) as Hfetch.
  pose proof (save_back late (get "/unsafe/foo.jpg") "foo.jpg"
                (Parse "/unsafe/foo.jpg")) as Hdelete.
  cbv zeta in Hfetch, Hdelete.
  destruct Hfetch as (Hfetch & _). destruct Hdelete as (_ & _ & _ & Hdelete).
  destruct Hfetch as (Hsaved & _);
    [vm_compute; reflexivity|right; reflexivity|].
  split; [exact Hs|]. split.
  - rewrite Hsaved; [vm_compute; reflexivity|].
    split; [reflexivity|split; [reflexivity|split; [reflexivity|exact Hs]]].
  - split; [exact Hlate|].
    rewrite (Hdelete _ _ DeadlineExceeded Hlate); vm_compute; reflexivity.
Defined.

Lemma suppress_marker_witness :
  isAcquired background "img:a" = false
  /\ Imagor.suppress bare false background "img:a" probe
     = probe (WithValue background "img:a")
  /\ Imagor.suppress bare false (WithValue background "img:a") "img:a" probe
     = probe (WithValue background "img:a").
Proof.
  assert (isAcquired background "img:a" = false) as Hfree by (vm_compute; reflexivity).
  split; [exact Hfree|].
  destruct (suppress_marker bare false background "img:a" probe)
    as (Hheld & _ & Hlead & _).
  destruct (suppress_marker bare false (WithValue background "img:a") "img:a" probe)
    as (_ & Hdirect & _).
  split; [apply Hlead; [exact Hfree|reflexivity|reflexivity]|exact (Hdirect Hheld)].
Defined.

Lemma loadResult_fresh_witness :
  Imagor.ModifiedTimeCheck (checking [sources] [thumbs]) = true
  /\ (((exists resStat sourceStat,
          stat_ok (Imagor.s_Stat thumbs (rctx (get "/unsafe/foo.jpg")) "foo.jpg")
          = Some resStat
          /\ first_stat (rctx (get "/unsafe/foo.jpg")) "foo.jpg"
               (Imagor.Storages (checking [sources] [thumbs])) sourceStat
          /\ ModifiedTime sourceStat <= ModifiedTime resStat)
       /\ Imagor.loadResult (checking [sources] [thumbs]) (get "/unsafe/foo.jpg")
            "foo.jpg" "foo.jpg" false = Some (jpeg "thumb"))
      \/ (~ (exists resStat sourceStat,
               stat_ok (Imagor.s_Stat thumbs (rctx (get "/unsafe/foo.jpg")) "foo.jpg")
               = Some resStat
               /\ first_stat (rctx (get "/unsafe/foo.jpg")) "foo.jpg"
                    (Imagor.Storages (checking [sources] [thumbs])) sourceStat
               /\ ModifiedTime sourceStat <= ModifiedTime resStat)
          /\ Imagor.loadResult (checking [sources] [thumbs]) (get "/unsafe/foo.jpg")
               "foo.jpg" "foo.jpg" false = None)).
Proof.
  split; [reflexivity|].
  apply (loadResult_fresh (checking [sources] [thumbs]) (get "/unsafe/foo.jpg")
           "foo.jpg" "foo.jpg" false (Some (jpeg "thumb")) thumbs);
    reflexivity.
Defined.

(** A loader whose own upstream call was canceled, under a caller whose
    context stays live: the response is 499 with no body. *)
Lemma status_499_without_cancel :
  ctx_err (rctx (get "/unsafe/foo.jpg")) = None
  /\ Imagor.ServeHTTP gone (get "/unsafe/foo.jpg")
     = (mkResponse 499 None None None NoBody, []).
Proof. split; vm_compute; reflexivity. Qed.

(** A request with a method that is not served, from a caller who has gone
    away: the response is 405. *)
Lemma unserved_method_after_cancel :
  ctx_err (rctx abandoned) = Some Canceled
  /\ status (value (Imagor.ServeHTTP gone abandoned)) = 405.
Proof. split; vm_compute; reflexivity. Qed.

Lemma ServeHTTP_canceled_witness :
  (Method (get "/unsafe/foo.jpg") = "GET" \/ Method (get "/unsafe/foo.jpg") = "HEAD")
  /\ errors_Is (snd (checkBlob (value (Imagor.Do gone (get "/unsafe/foo.jpg")
                                         (Parse (EscapedPath (get "/unsafe/foo.jpg")))))))
               Canceled = true
  /\ status (value (Imagor.ServeHTTP gone (get "/unsafe/foo.jpg"))) = 499
  /\ body (value (Imagor.ServeHTTP gone (get "/unsafe/foo.jpg"))) = NoBody.
Proof.
  assert (Method (get "/unsafe/foo.jpg") = "GET" \/ Method (get "/unsafe/foo.jpg") = "HEAD")
    as Hm by (left; reflexivity).
  assert (errors_Is (snd (checkBlob (value (Imagor.Do gone (get "/unsafe/foo.jpg")
                                         (Parse (EscapedPath (get "/unsafe/foo.jpg")))))))
                    Canceled = true) as Hc by (vm_compute; reflexivity).
  split; [exact Hm|]. split; [exact Hc|].
  assert (EscapedPath (get "/unsafe/foo.jpg") ≠ "/") as Hroot by discriminate.
  assert (EscapedPath (get "/unsafe/foo.jpg") ≠ "") as Hempty by discriminate.
  assert (p_Params (Parse (EscapedPath (get "/unsafe/foo.jpg"))) = false)
    as Hp by reflexivity.
  pose proof (ServeHTTP_canceled gone (get "/unsafe/foo.jpg") Hm Hroot Hempty Hp)
    as Hthm.
  cbv zeta in Hthm.
  destruct Hthm as (Hcanceled & _); [vm_compute; discriminate|].
  exact (Hcanceled Hc).
Defined.

(** A storage that fails with [ErrInternal], then a loader that passes: in
    the engine [load] returns [ErrPass], and in the earlier engine
    [ErrNotFound]; in neither does the last error that is not a pass win. *)
Lemma later_pass_hides_error :
  Imagor.load declined (get "/unsafe/boooo") (Imagor.Storages declined)
    (Imagor.Loaders declined) "boooo" false
  = (None, None, Some (EImagor ErrPass))
  /\ value (Legacy.load (earlier [failing (EImagor ErrInternal); failing (EImagor ErrPass)])
              (get "/unsafe/boooo") "boooo")
     = (None, Some (EImagor ErrNotFound)).
Proof. split; vm_compute; reflexivity. Qed.

Lemma ErrPass_at_the_surface_witness :
  "boooo" ≠ ""
  /\ Imagor.load declined (get "/unsafe/boooo") (Imagor.Storages declined)
       (Imagor.Loaders declined) "boooo" false
     = (None, None, Some (EImagor ErrPass))
  /\ value (Legacy.load (earlier [failing (EImagor ErrInternal); failing (EImagor ErrPass)])
              (get "/unsafe/boooo") "boooo")
     = (None, Some (EImagor ErrNotFound))
  /\ Legacy.respond (earlier [failing (EImagor ErrInternal); failing (EImagor ErrPass)])
       (Parse "/unsafe/boooo") (None, None, Some (EImagor ErrPass))
     = Legacy.resJSON 404 (ErrorJSON ErrNotFound).
Proof.
  assert ("boooo" ≠ "") as Hkey by discriminate.
  split; [exact Hkey|].
  destruct (ErrPass_at_the_surface declined (get "/unsafe/boooo")
              (Imagor.Storages declined) (Imagor.Loaders declined) "boooo"
              [(Some down, (None, Some (EImagor ErrInternal)))]
              (None, (None, Some (EImagor ErrPass)))
              (earlier [failing (EImagor ErrInternal); failing (EImagor ErrPass)])
              (get "/unsafe/boooo") "boooo"
              [failing (EImagor ErrInternal)] (failing (EImagor ErrPass))
              (Parse "/unsafe/boooo") (EImagor ErrPass))
    as (Hload & Hearlier & _ & Hrender).
  - exact Hkey.
  - reflexivity.
  - repeat constructor; discriminate.
  - reflexivity.
  - reflexivity.
  - repeat constructor; discriminate.
  - reflexivity.
  - reflexivity.
  - split; [exact Hload|]. split; [exact Hearlier|exact Hrender].
Defined.

(** *** The further properties at work *)

Lemma load_meta_mode_witness :
  "foo.jpg" ≠ ""
  /\ Imagor.load bare (get "/unsafe/foo.jpg") [unreachable; described] []
       "foo.jpg" true
     = (Some (setMeta NewEmptyBlob portrait), Some described,
        Some (Plain "timeout"))
  /\ Imagor.load bare (get "/unsafe/foo.jpg") [unreachable] [] "foo.jpg" true
     = (None, None, Some (Plain "timeout")).
Proof.
  assert ("foo.jpg" ≠ "") as Hkey by discriminate.
  split; [exact Hkey|].
  pose proof (load_meta_mode bare (get "/unsafe/foo.jpg") [unreachable; described]
                [] "foo.jpg" Hkey) as Hhit.
  pose proof (load_meta_mode bare (get "/unsafe/foo.jpg") [unreachable]
                [] "foo.jpg" Hkey) as Hmiss.
  cbv zeta in Hhit, Hmiss.
  destruct Hhit as [Hhit _]. destruct Hmiss as [_ Hmiss].
  split.
  - apply (Hhit [unreachable] described [] portrait);
      [reflexivity|repeat constructor|reflexivity].
  - apply Hmiss. repeat constructor.
Defined.

Lemma load_origin_witness :
  Imagor.load bare (get "/unsafe/foo.jpg") [sources; thumbs] [] "foo.jpg" false
  = (Some (jpeg "thumb"), Some thumbs, None)
  /\ thumbs ∈ [sources; thumbs]
  /\ checkBlob (Imagor.s_Get thumbs (loadRequest bare (get "/unsafe/foo.jpg")) "foo.jpg")
     = (Some (jpeg "thumb"), None).
Proof.
  assert (Imagor.load bare (get "/unsafe/foo.jpg") [sources; thumbs] [] "foo.jpg" false
          = (Some (jpeg "thumb"), Some thumbs, None)) as Hload by reflexivity.
  split; [exact Hload|].
  destruct (load_origin bare (get "/unsafe/foo.jpg") [sources; thumbs] []
              "foo.jpg" false _ _ _ Hload) as (Hin & Hbytes & _).
  split; [exact Hin|]. destruct (Hbytes eq_refl) as (_ & _ & Hget). exact Hget.
Defined.

Lemma loadResult_meta_witness :
  "foo.jpg" ≠ ""
  /\ Imagor.ModifiedTimeCheck (engine [] [] [described; results] []) = false
  /\ Imagor.loadResult (engine [] [] [described; results] [])
       (get "/unsafe/meta/foo.jpg") "foo.jpg" "foo.jpg" true
     = Some (setMeta NewEmptyBlob portrait)
  /\ Imagor.loadResult (engine [] [] [results; described] [])
       (get "/unsafe/meta/foo.jpg") "foo.jpg" "foo.jpg" true
     = None.
Proof.
  assert ("foo.jpg" ≠ "") as Hkey by discriminate.
  split; [exact Hkey|]. split; [reflexivity|]. split; [|reflexivity].
  apply (loadResult_meta (engine [] [] [described; results] [])
           (get "/unsafe/meta/foo.jpg") "foo.jpg" "foo.jpg"
           (setMeta NewEmptyBlob portrait) Hkey eq_refl).
  exists [], described, [results], portrait.
  split; [reflexivity|]. split; [constructor|].
  split; [reflexivity|]. split; reflexivity.
Defined.

Lemma suppress_follower_witness :
  isAcquired background "img:a" = false
  /\ ctx_err background = None
  /\ Imagor.suppress
       (inflight bare "img:a" [(None, Some Canceled); (Some (jpeg "bar"), None)])
       false background "img:a" probe
     = ret ((Some (jpeg "bar"), None), false)
  /\ Imagor.suppress (inflight bare "img:a" [(None, Some Canceled)])
       false background "img:a" probe
     = probe (WithValue background "img:a").
Proof.
  assert (isAcquired background "img:a" = false) as Hfree by (vm_compute; reflexivity).
  split; [exact Hfree|]. split; [reflexivity|].
  split.
  - exact (proj1 (suppress_follower
                    (inflight bare "img:a"
                       [(None, Some Canceled); (Some (jpeg "bar"), None)])
                    false background "img:a" probe Hfree eq_refl)).
  - exact (proj1 (suppress_follower
                    (inflight bare "img:a" [(None, Some Canceled)])
                    false background "img:a" probe Hfree eq_refl)).
Defined.

Lemma suppress_abandoned_witness :
  isAcquired canceled "img:a" = false
  /\ ctx_err canceled = Some Canceled
  /\ fst (value (Imagor.suppress
                   (inflight bare "img:a" [(Some (jpeg "bar"), None)])
                   false canceled "img:a" probe))
     = (None, Some Canceled)
  /\ Imagor.suppress (inflight bare "img:a" [(Some (jpeg "bar"), None)])
       false canceled "img:a" probe
     = ret ((None, Some Canceled), false).
Proof.
  assert (isAcquired canceled "img:a" = false) as Hfree by (vm_compute; reflexivity).
  split; [exact Hfree|]. split; [reflexivity|].
  destruct (suppress_abandoned
              (inflight bare "img:a" [(Some (jpeg "bar"), None)])
              false canceled "img:a" probe Canceled Hfree eq_refl) as [Hv Hrun].
  split; [exact Hv|]. apply Hrun. vm_compute. discriminate.
Defined.

Lemma Do_load_failure_witness :
  leads declined (get "/unsafe/boooo") (Parse "/unsafe/boooo")
  /\ sourceLoad declined (get "/unsafe/boooo") (Parse "/unsafe/boooo")
     = (None, None, Some (EImagor ErrPass))
  /\ Imagor.Do declined (get "/unsafe/boooo") (Parse "/unsafe/boooo")
     = ((None, Some (EImagor ErrPass)), []).
Proof.
  assert (leads declined (get "/unsafe/boooo") (Parse "/unsafe/boooo")) as Hleads.
  { unfold leads. cbv zeta. repeat apply conj; vm_compute; reflexivity. }
  assert (sourceLoad declined (get "/unsafe/boooo") (Parse "/unsafe/boooo")
          = (None, None, Some (EImagor ErrPass))) as Hload
    by (vm_compute; reflexivity).
  split; [exact Hleads|]. split; [exact Hload|].
  exact (Do_load_failure declined (get "/unsafe/boooo") (Parse "/unsafe/boooo")
           None None (EImagor ErrPass) Hleads Hload).
Defined.

Lemma Do_runs_chain_witness :
  leads direct (get "/unsafe/foo.jpg") (Parse "/unsafe/foo.jpg")
  /\ sourceLoad direct (get "/unsafe/foo.jpg") (Parse "/unsafe/foo.jpg")
     = (Some (jpeg "bar"), None, None)
  /\ isBlobEmpty (Some (jpeg "bar")) = false
  /\ value (Imagor.Do direct (get "/unsafe/foo.jpg") (Parse "/unsafe/foo.jpg"))
     = (Some (jpeg "bar"), None).
Proof.
  assert (leads direct (get "/unsafe/foo.jpg") (Parse "/unsafe/foo.jpg")) as Hleads.
  { unfold leads. cbv zeta. repeat apply conj; vm_compute; reflexivity. }
  assert (sourceLoad direct (get "/unsafe/foo.jpg") (Parse "/unsafe/foo.jpg")
          = (Some (jpeg "bar"), None, None)) as Hload
    by (vm_compute; reflexivity).
  split; [exact Hleads|]. split; [exact Hload|]. split; [reflexivity|].
  pose proof (Do_runs_chain direct (get "/unsafe/foo.jpg") (Parse "/unsafe/foo.jpg")
                (Some (jpeg "bar")) None Hleads Hload eq_refl) as Hrun.
  cbv zeta in Hrun. destruct Hrun as [_ Hrun]. apply Hrun. reflexivity.
Defined.

Lemma HEAD_has_no_body_witness :
  Method (mkRequest "HEAD" "/unsafe/foo.jpg" "" background) = "HEAD"
  /\ (body (value (Imagor.ServeHTTP direct
                     (mkRequest "HEAD" "/unsafe/foo.jpg" "" background)))
      = NoBody
      \/ body (value (Imagor.ServeHTTP direct
                        (mkRequest "HEAD" "/unsafe/foo.jpg" "" background)))
         = Aborted).
Proof.
  split; [reflexivity|].
  apply (HEAD_has_no_body direct
           (mkRequest "HEAD" "/unsafe/foo.jpg" "" background)).
  reflexivity.
Defined.


Lemma no_error_body_when_disabled_witness :
  Imagor.DisableErrorBody (muted (signed [])) = true
  /\ body (value (Imagor.ServeHTTP (muted (signed [])) (get "/foo.jpg")))
     ≠ ErrorJSON ErrSignatureMismatch
  /\ status (value (Imagor.ServeHTTP (muted (signed [])) (get "/foo.jpg"))) = 403.
Proof.
  split; [reflexivity|]. split; [|vm_compute; reflexivity].
  apply (no_error_body_when_disabled (muted (signed [])) (get "/foo.jpg")).
  reflexivity.
Defined.

Lemma legacy_load_saves_witness :
  0 < Legacy.SaveTimeout archive
  /\ Legacy.g archive !! "beep" = None
  /\ Legacy.load archive (get "/unsafe/beep") "beep"
     = ((Some (Legacy.mkFile "boop"), None),
        [Legacy.EvSave "backup" (WithTimeout background 20) "beep"
           (Some (Legacy.mkFile "boop"))]).
Proof.
  assert (0 < Legacy.SaveTimeout archive) as Hsave by (vm_compute; reflexivity).
  split; [exact Hsave|]. split; [reflexivity|].
  pose proof (legacy_load_saves archive (get "/unsafe/beep") "beep"
                [failing (EImagor ErrPass)] kept [] Hsave eq_refl eq_refl) as Hthm.
  cbv zeta in Hthm.
  destruct Hthm as (Hv & Ht & _); [repeat constructor; discriminate|reflexivity|].
  destruct (Legacy.load archive (get "/unsafe/beep") "beep") as [v t].
  simpl in Hv, Ht. rewrite Hv, Ht. vm_compute. reflexivity.
Defined.

Lemma result_key_strips_meta_witness :
  Imagor.ResultKey bare = None
  /\ resultKeyOf bare (Parse "/unsafe/meta/foo.jpg") = "foo.jpg"
  /\ resultKeyOf bare (Parse "/unsafe/meta/foo.jpg")
     = resultKeyOf bare (Parse "/unsafe/foo.jpg").
Proof.
  split; [reflexivity|].
  destruct (result_key_strips_meta bare eq_refl) as (Hmeta & _ & Hshared).
  split.
  - apply (Hmeta (Parse "/unsafe/meta/foo.jpg") "foo.jpg"). reflexivity.
  - apply (Hshared (Parse "/unsafe/meta/foo.jpg") (Parse "/unsafe/foo.jpg"));
      reflexivity.
Defined.

Lemma legacy_signature_gate_witness :
  EscapedPath (get "/foo.jpg") ≠ "/"
  /\ Legacy.Sign (External := strict) "foo.jpg" "1234" ≠ ""
  /\ Legacy.Do (H0 := strict) (earlier []) (get "/foo.jpg") (Parse "/foo.jpg")
     = ret (None, None, Some (EImagor ErrSignatureMismatch))
  /\ Legacy.ServeHTTP (H0 := strict) (earlier []) (get "/foo.jpg")
     = ret (Legacy.resJSON 403 (ErrorJSON ErrSignatureMismatch)).
Proof.
  assert (EscapedPath (get "/foo.jpg") ≠ "/") as Hpath by discriminate.
  assert (Legacy.Sign (External := strict) "foo.jpg" "1234" ≠ "") as Hsign
    by discriminate.
  split; [exact Hpath|]. split; [exact Hsign|].
  apply (legacy_signature_gate (H1 := strict) (earlier []) (get "/foo.jpg"));
    [exact Hpath|reflexivity|reflexivity|discriminate|reflexivity|reflexivity].
Defined.

Lemma legacy_serves_loaded_witness :
  EscapedPath (get "/unsafe/beep") ≠ "/"
  /\ 0 < Legacy.SaveTimeout archive
  /\ Legacy.ServeHTTP archive (get "/unsafe/beep")
     = (mkResponse 200 (Some "application/octet-stream") None (Some (86400, 0))
          (Bytes "boop"),
        [Legacy.EvSave "backup" (WithTimeout background 20) "beep"
           (Some (Legacy.mkFile "boop"))]).
Proof.
  assert (EscapedPath (get "/unsafe/beep") ≠ "/") as Hpath by discriminate.
  assert (0 < Legacy.SaveTimeout archive) as Hsave by (vm_compute; reflexivity).
  split; [exact Hpath|]. split; [exact Hsave|].
  pose proof (legacy_serves_loaded archive (get "/unsafe/beep")
                [failing (EImagor ErrPass)] kept [] (Legacy.mkFile "boop")) as Hthm.
  cbv zeta in Hthm.
  destruct Hthm as (Hv & Ht);
    [exact Hpath|reflexivity|left; reflexivity|exact Hsave|reflexivity|reflexivity
    |repeat constructor; discriminate|reflexivity|reflexivity|reflexivity
    |reflexivity|].
  destruct (Legacy.ServeHTTP archive (get "/unsafe/beep")) as [v t].
  simpl in Hv, Ht. rewrite Hv, Ht. vm_compute. reflexivity.
Defined.
Lemma Do_context_fired_witness :
  gateFails (within direct 30) (Parse "/unsafe/foo.jpg") = false
  /\ ctx_err (rctx waiting) = None
  /\ ctx_err (requestCtx (within direct 30) waiting) = Some DeadlineExceeded
  /\ value (Imagor.Do (within direct 30) waiting (Parse "/unsafe/foo.jpg"))
     = (None, Some DeadlineExceeded)
  /\ value (Imagor.Do (within direct 90) waiting (Parse "/unsafe/foo.jpg"))
     = (Some (jpeg "bar"), None).
Proof.
  assert (gateFails (within direct 30) (Parse "/unsafe/foo.jpg") = false) as Hgate
    by reflexivity.
  assert (ctx_err (requestCtx (within direct 30) waiting) = Some DeadlineExceeded)
    as Hfired by (vm_compute; reflexivity).
  split; [exact Hgate|]. split; [reflexivity|]. split; [exact Hfired|].
  pose proof (Do_context_fired (within direct 30) waiting (Parse "/unsafe/foo.jpg")
                DeadlineExceeded) as Hthm.
  cbv zeta in Hthm.
  destruct Hthm as (Hvalue & _);
    [exact Hgate|reflexivity|vm_compute; reflexivity|exact Hfired|].
  split; [exact Hvalue|vm_compute; reflexivity].
Defined.

End Checks.
